(** * go_ai_web_scraper: the chunking-and-aggregation pipeline of [main.go]

    A shallow embedding of [splitDOMContent], [parseWithGenAI],
    [printFormatted] and [min] from [src/main.go], and the properties the
    specification states about them.

    Conventions of the embedding:
    - a Go [string] is its sequence of bytes ([list byte]); [len] counts bytes
      and [s[i:j]] slices bytes, as in Go;
    - a Go [int] is a 64-bit two's-complement integer, carried as a [Z] with
      the wrap-around of [+] written out ([int_add]);
    - a [for] loop whose termination depends on its arguments takes a bound
      on the number of body executions (its fuel); the exit test itself
      costs nothing, so a loop whose condition is false at entry returns
      with any fuel;
    - a run-time panic (slice bounds, index out of range) is an outcome of
      its own, distinct from a returned value and from a returned [error];
    - the world outside the process (environment, the remote model, the
      terminal) is a record of collaborators and a trace of events. *)

From Stdlib Require Import ZArith List Lia Bool String DecimalString.
From Stdlib Require Import Strings.Byte.
From stdpp Require Import base tactics option list numbers strings gmap.

Local Open Scope Z_scope.

(** ** Go values *)

Module Go.

(** A Go string: an immutable sequence of bytes. *)
Definition gostring : Type := list byte.

(** A string literal of the source. *)
Definition lit (s : string) : gostring := list_byte_of_string s.

(** The newline byte, ["\n"]. *)
Definition LF : byte := x0a.

Definition int_bits : Z := 64.
Definition min_int : Z := - 2 ^ 63.
Definition max_int : Z := 2 ^ 63 - 1.

(** The values of type [int]. *)
Definition in_int (z : Z) : Prop := min_int <= z <= max_int.

(** Two's-complement wrap-around of a mathematical integer into [int]. *)
Definition wrap (z : Z) : Z := (z + 2 ^ 63) mod 2 ^ 64 - 2 ^ 63.

(** [a + b] on [int]. *)
Definition int_add (a b : Z) : Z := wrap (a + b).

(** [len(s)] for a string or a slice. *)
Definition len {A} (s : list A) : Z := Z.of_nat (length s).

(** What running a piece of Go code can come to. *)
Inductive outcome (A : Type) : Type :=
| Returned (a : A)      (* the function returned [a] *)
| Panicked              (* a run-time panic unwound the function *)
| OutOfFuel.            (* the loop was still running when the bound was hit *)
Arguments Returned {A} a.
Arguments Panicked {A}.
Arguments OutOfFuel {A}.

(** The slice expression [s[lo:hi]]: Go panics unless
    [0 <= lo <= hi <= len(s)]. *)
Definition slice {A} (s : list A) (lo hi : Z) : option (list A) :=
  if (0 <=? lo) && (lo <=? hi) && (hi <=? len s)
  then Some (take (Z.to_nat (hi - lo)) (drop (Z.to_nat lo) s))
  else None.

(** The index expression [s[i]]: Go panics unless [0 <= i < len(s)]. *)
Definition index {A} (s : list A) (i : Z) : option A :=
  if (0 <=? i) then s !! Z.to_nat i else None.

(** [strings.Builder]: the sequence of strings written so far. *)
Definition Builder : Type := list gostring.
Definition WriteString (b : Builder) (s : gostring) : Builder := b ++ [s].
Definition Builder_String (b : Builder) : gostring := concat b.

(** [strings.Join(elems, sep)]. *)
Fixpoint Join (elems : list gostring) (sep : gostring) : gostring :=
  match elems with
  | [] => []
  | [a] => a
  | a :: rest => a ++ sep ++ Join rest sep
  end.

(** The verb [%d] of package [fmt] on an [int]. *)
Definition format_d (n : Z) : gostring :=
  lit (NilZero.string_of_int (Z.to_int n)).

(** A Go [error] value: either a plain message ([fmt.Errorf] without
    [%w], [errors.New]) or a message wrapping a cause ([fmt.Errorf] with
    [%w]; [errors.Unwrap] gives the cause back). *)
Inductive error : Type :=
| errorString (msg : gostring)
| wrapError (msg : gostring) (cause : error).

(** [err.Error()]. *)
Definition Error (e : error) : gostring :=
  match e with
  | errorString msg => msg
  | wrapError msg _ => msg
  end.

(** [errors.Unwrap(err)]. *)
Definition Unwrap (e : error) : option error :=
  match e with
  | errorString _ => None
  | wrapError _ cause => Some cause
  end.

End Go.
Export Go.

(** ** [min] (main.go, lines 132-137) *)

Definition min (a b : Z) : Z := if a <? b then a else b.

(** ** [splitDOMContent] (main.go, lines 57-67) *)

(** The loop [for i := 0; i < len(domContent); i += maxLength { ... }],
    entered with the current [i] and [chunks]. *)
Fixpoint splitDOMContent_loop (fuel : nat) (domContent : gostring)
    (maxLength : Z) (i : Z) (chunks : list gostring)
    : outcome (list gostring) :=
  if i <? len domContent then
    match fuel with
    | O => OutOfFuel
    | S fuel' =>
        let end_ := int_add i maxLength in
        let end_ := if end_ >? len domContent then len domContent else end_ in
        match slice domContent i end_ with
        | None => Panicked
        | Some chunk =>
            splitDOMContent_loop fuel' domContent maxLength
              (int_add i maxLength) (chunks ++ [chunk])
        end
    end
  else Returned chunks.

Definition splitDOMContent (fuel : nat) (domContent : gostring)
    (maxLength : Z) : outcome (list gostring) :=
  splitDOMContent_loop fuel domContent maxLength 0 [].

(** ** [printFormatted] (main.go, lines 118-130) *)

(** The loop [for len(text) > 0 { ... }], entered with the current [text]
    and the builder [result]; it returns the builder, whose entries are the
    strings handed to [WriteString], one per emitted line. *)
Fixpoint printFormatted_loop (fuel : nat) (text : gostring) (lineWidth : Z)
    (result : Builder) : outcome Builder :=
  if len text >? 0 then
    match fuel with
    | O => OutOfFuel
    | S fuel' =>
        if len text >? lineWidth then
          match slice text 0 lineWidth, slice text lineWidth (len text) with
          | Some line, Some rest =>
              printFormatted_loop fuel' rest lineWidth
                (WriteString result (line ++ [LF]))
          | _, _ => Panicked
          end
        else
          printFormatted_loop fuel' [] lineWidth
            (WriteString result (text ++ [LF]))
    end
  else Returned result.

(** [f <$> o] on outcomes. *)
Definition outcome_map {A B} (f : A -> B) (o : outcome A) : outcome B :=
  match o with
  | Returned a => Returned (f a)
  | Panicked => Panicked
  | OutOfFuel => OutOfFuel
  end.

(** The writes of one call, in order. *)
Definition printFormatted_writes (fuel : nat) (text : gostring)
    (lineWidth : Z) : outcome Builder :=
  printFormatted_loop fuel text lineWidth [].

(** [return result.String()]. *)
Definition printFormatted (fuel : nat) (text : gostring) (lineWidth : Z)
    : outcome gostring :=
  outcome_map Builder_String (printFormatted_writes fuel text lineWidth).

(** ** The remote model (package [genai]) *)

(** A [genai.Part] of a response. The source prints every part, whatever
    its dynamic type: [Text] is the string type of the package, and a part
    of any other type ([Blob], [FunctionCall], ...) is carried by what
    [String()] or [fmt.Sprint] prints for it. *)
Inductive Part : Type :=
| Text (s : gostring)
| OtherPart (printed : gostring).

(** [str.String()] when the part is a [fmt.Stringer], [fmt.Sprint(part)]
    otherwise (lines 103-107). *)
Definition part_string (p : Part) : gostring :=
  match p with
  | Text s => s
  | OtherPart printed => printed
  end.

(** [genai.Content], [genai.Candidate] (whose [Content] is a pointer, [nil]
    being [None]) and [genai.GenerateContentResponse]. *)
Record Content : Type := { Parts : list Part }.
Record Candidate : Type := { Content_ : option Content }.
Record GenerateContentResponse : Type := { Candidates : list Candidate }.

(** What the process does to the outside, in order. *)
Inductive Event : Type :=
| EvNewClient (apiKey : gostring)
| EvGenerateContent (model : gostring) (instruction chunk : gostring)
| EvPrintf (out : gostring)
| EvClose.

(** The outside of one run: the environment variables, and the answers of
    package [genai]. [GenerateContent n instruction chunk] is the answer to
    the call issued after [n] earlier calls on the same client. *)
Record World : Type := {
  environ : gmap string gostring;
  NewClient : gostring -> option error;
  GenerateContent : nat -> gostring -> gostring
                    -> GenerateContentResponse + error
}.

(** [os.Getenv(key)]: the value, or the empty string when unset. *)
Definition Getenv (W : World) (key : string) : gostring :=
  match environ W !! key with
  | Some value => value
  | None => []
  end.

(** The calls of [model.GenerateContent] in a trace, as (instruction,
    chunk) pairs. *)
Definition invocations (tr : list Event) : list (gostring * gostring) :=
  omap (fun e => match e with
                 | EvGenerateContent _ instruction chunk =>
                     Some (instruction, chunk)
                 | _ => None
                 end) tr.

(** ** [parseWithGenAI] (main.go, lines 69-116) *)

(** Lines 99-112: the text of one response. Every part of every candidate
    with a non-nil content is written, followed by a newline. *)
Definition response_writes (resp : GenerateContentResponse) : Builder :=
  fold_left
    (fun resultBuilder cand =>
       match Content_ cand with
       | Some content =>
           fold_left
             (fun resultBuilder part =>
                WriteString (WriteString resultBuilder (part_string part))
                  [LF])
             (Parts content) resultBuilder
       | None => resultBuilder
       end)
    (Candidates resp) [].

Definition response_text (resp : GenerateContentResponse) : gostring :=
  Builder_String (response_writes resp).

Definition maxChunks : Z := 16.

Section parseWithGenAI.

Variable W : World.
Variable domChunks : list gostring.
Variable parseDescription : gostring.

(** Lines 88-115: the loop [for i := 0; i < chunkCount; i++ { ... }]
    and the return after it, entered with the current [i], [results] and
    trace. *)
Fixpoint parseWithGenAI_loop (fuel : nat) (chunkCount i : Z)
    (results : list gostring) (tr : list Event)
    : list Event * outcome (gostring * option error) :=
  if i <? chunkCount then
    match fuel with
    | O => (tr, OutOfFuel)
    | S fuel' =>
        let tr := tr ++ [EvPrintf (lit "Processing chunk "
                                   ++ format_d (int_add i 1) ++ lit " of "
                                   ++ format_d chunkCount
                                   ++ lit "..." ++ [LF])] in
        match index domChunks i with
        | None => (tr, Panicked)
        | Some chunk =>
            let answer :=
              GenerateContent W (length (invocations tr))
                parseDescription chunk in
            let tr := tr ++ [EvGenerateContent (lit "gemini-1.5-flash")
                               parseDescription chunk] in
            match answer with
            | inr err =>
                (tr, Returned
                       ([], Some (wrapError
                                    (lit "failed to generate content for chunk "
                                     ++ format_d (int_add i 1) ++ lit ": "
                                     ++ Error err) err)))
            | inl resp =>
                parseWithGenAI_loop fuel' chunkCount (int_add i 1)
                  (results ++ [response_text resp]) tr
            end
        end
    end
  else (tr, Returned (Join results [LF], None)).

Definition parseWithGenAI
    : list Event * outcome (gostring * option error) :=
  let apiKey := Getenv W "GEMINI_API_KEY" in
  if decide (apiKey = []) then
    ([], Returned ([], Some (errorString (lit "GEMINI_API_KEY not set"))))
  else
    let tr := [EvNewClient apiKey] in
    match NewClient W apiKey with
    | Some err =>
        (tr, Returned
               ([], Some (wrapError
                            (lit "failed to create GenAI client: "
                             ++ Error err) err)))
    | None =>
        let chunkCount := min (len domChunks) maxChunks in
        let '(tr, out) :=
          parseWithGenAI_loop (Z.to_nat chunkCount) chunkCount 0 [] tr in
        (* defer client.Close() *)
        (tr ++ [EvClose], out)
    end.

End parseWithGenAI.


(** * Definitions used by the statements *)

(** ** The chunks of a document, as the specification describes them *)

(** A string fits in memory, so its length stays far below the largest
    [int]. The bound [2 ^ 62] is what keeps [i + maxLength] of the chunking
    loop inside [int] for every [maxLength]; the allocator of the Go
    runtime stops much earlier (at [2 ^ 48] bytes on 64-bit targets). *)
Definition max_string_len : Z := 2 ^ 62.
Definition valid_string (s : gostring) : Prop := len s <= max_string_len.

(** [ceil(n / L)] on integers. *)
Definition ceil_div (n L : Z) : Z := (n + L - 1) / L.

(** Chunk [k] of [D]: the bytes at offsets [[k*L, min((k+1)*L, len D))]. *)
Definition chunk_at (D : gostring) (L k : Z) : gostring :=
  take (Z.to_nat L) (drop (Z.to_nat (k * L)) D).

(** Chunks [k0], [k0 + 1], ... up to the last one. *)
Definition chunks_from (D : gostring) (L k0 : Z) : list gostring :=
  chunk_at D L <$> seqZ k0 (ceil_div (len D) L - k0).

(** ** The parts and the per-chunk results of a run, for the statements *)

(** The parts the loops of lines 100-111 visit, in order: those of every
    candidate whose content is not nil. *)
Definition response_parts (resp : GenerateContentResponse) : list Part :=
  flat_map (fun cand => match Content_ cand with
                        | Some content => Parts content
                        | None => []
                        end) (Candidates resp).

Definition is_text (p : Part) : bool :=
  match p with Text _ => true | OtherPart _ => false end.

(** A response with a single candidate that holds the given parts. *)
Definition response_of (parts : list Part) : GenerateContentResponse :=
  {| Candidates := [ {| Content_ := Some {| Parts := parts |} |} ] |}.

(** The answer of the model to the call for chunk [j] (counting from 0),
    when the calls are issued one per chunk in batch order. *)
Definition answer (W : World) (domChunks : list gostring)
    (parseDescription : gostring) (j : nat)
    : option (GenerateContentResponse + error) :=
  GenerateContent W j parseDescription <$> domChunks !! j.

(** The call for chunk [j] succeeds. *)
Definition succeeds (W : World) (domChunks : list gostring)
    (parseDescription : gostring) (j : nat) : Prop :=
  forall chunk, domChunks !! j = Some chunk ->
    exists resp, GenerateContent W j parseDescription chunk = inl resp.

(** The per-chunk result for chunk [j]: the text of its response. *)
Definition chunk_result (W : World) (domChunks : list gostring)
    (parseDescription : gostring) (j : nat) : gostring :=
  match answer W domChunks parseDescription j with
  | Some (inl resp) => response_text resp
  | _ => []
  end.

(** The credential is configured and the client can be created. *)
Definition configured (W : World) : Prop :=
  Getenv W "GEMINI_API_KEY" <> [] /\
  NewClient W (Getenv W "GEMINI_API_KEY") = None.

(** ** Sample worlds *)

(** A world whose credential is set, whose client can be created, and
    whose model answers the call after [n] earlier ones with [answers n],
    whatever it is asked. *)
Definition scripted (answers : nat -> GenerateContentResponse + error)
    : World :=
  {| environ := {[ "GEMINI_API_KEY" := lit "secret" ]};
     NewClient := fun _ => None;
     GenerateContent := fun n _ _ => answers n |}.

(** A world without the credential. *)
Definition unconfigured : World :=
  {| environ := ∅;
     NewClient := fun _ => None;
     GenerateContent := fun _ _ _ => inl (response_of []) |}.

(** The model answers call [i] (counting from 1) with the single text part
    ["OK-i"]. *)
Definition ok_world : World :=
  scripted (fun n => inl (response_of
                            [Text (lit "OK-" ++ format_d (Z.of_nat n + 1))])).

(** The second call fails in transport. *)
Definition second_fails : World :=
  scripted (fun n => match n with
                     | 1%nat => inr (errorString (lit "connection reset"))
                     | _ => inl (response_of [Text (lit "fine")])
                     end).

(** The model answers with a single part that is not text: what
    [fmt.Sprint] prints for an empty [genai.Blob] of type [image/png]. *)
Definition blob_world : World :=
  scripted (fun _ => inl (response_of [OtherPart (lit "{image/png []}")])).

(** The second response has no candidates at all. *)
Definition second_empty : World :=
  scripted (fun n => match n with
                     | 1%nat => inl {| Candidates := [] |}
                     | _ => inl (response_of [Text (lit "fine")])
                     end).

Definition three_chunks : list gostring := [lit "aaa"; lit "bbb"; lit "cc"].

Definition seventeen_chunks : list gostring :=
  (fun k => lit "chunk " ++ format_d k) <$> seqZ 1 17.


(** ** The trace of a run, for the statements *)

(** The progress line of line 89, for chunk [i] (counting from 1) of [n]. *)
Definition progress (i n : Z) : gostring :=
  lit "Processing chunk " ++ format_d i ++ lit " of " ++ format_d n
  ++ lit "..." ++ [LF].

(** What the loop does to the outside for the chunks [chunks], the first
    of which has index [i] (counting from 0): a progress line, then the
    call, chunk after chunk. *)
Fixpoint batch_events (parseDescription : gostring) (chunkCount : Z)
    (i : nat) (chunks : list gostring) : list Event :=
  match chunks with
  | [] => []
  | chunk :: chunks' =>
      [EvPrintf (progress (Z.of_nat i + 1) chunkCount);
       EvGenerateContent (lit "gemini-1.5-flash") parseDescription chunk]
      ++ batch_events parseDescription chunkCount (S i) chunks'
  end.

(** The credential is set but the client cannot be created. *)
Definition client_fails : World :=
  {| environ := {[ "GEMINI_API_KEY" := lit "secret" ]};
     NewClient := fun _ => Some (errorString (lit "no transport"));
     GenerateContent := fun _ _ _ => inl (response_of []) |}.

(** * Properties *)

(** ** Go integers and slices *)

Lemma wrap_id z : in_int z -> wrap z = z.
Proof.
  unfold in_int, min_int, max_int, wrap. intros Hz.
  rewrite Z.mod_small; lia.
Qed.

Lemma len_nonneg {A} (s : list A) : 0 <= len s.
Proof. unfold len. lia. Qed.

Lemma len_nil_iff {A} (s : list A) : len s = 0 <-> s = [].
Proof.
  unfold len. split.
  - destruct s; [done | simpl; lia].
  - by intros ->.
Qed.

Lemma len_pos {A} (s : list A) : s <> [] -> 0 < len s.
Proof. destruct s; [done | unfold len; simpl; lia]. Qed.

Lemma len_app {A} (s t : list A) : len (s ++ t) = len s + len t.
Proof. unfold len. rewrite length_app. lia. Qed.

Lemma slice_Some {A} (s : list A) lo hi :
  0 <= lo <= hi -> hi <= len s ->
  slice s lo hi = Some (take (Z.to_nat (hi - lo)) (drop (Z.to_nat lo) s)).
Proof.
  intros [Hlo Hhi] Hlen. unfold slice.
  assert ((0 <=? lo) = true) as -> by lia.
  assert ((lo <=? hi) = true) as -> by lia.
  assert ((hi <=? len s) = true) as -> by lia.
  done.
Qed.

Lemma slice_None_neg {A} (s : list A) lo hi : hi < lo -> slice s lo hi = None.
Proof.
  intros Hlt. unfold slice.
  assert ((lo <=? hi) = false) as -> by lia.
  by rewrite andb_false_r.
Qed.

Lemma slice_len {A} (s c : list A) lo hi :
  slice s lo hi = Some c -> len c = hi - lo.
Proof.
  unfold slice, len. case_match eqn:Hb; [|done].
  intros [= <-]. rewrite length_take, length_drop. lia.
Qed.

(** ** Ceiling division and the chunks of a document *)

Lemma ceil_div_bounds n L :
  1 <= L -> 0 <= n -> (ceil_div n L - 1) * L < n <= ceil_div n L * L.
Proof.
  intros HL Hn. unfold ceil_div.
  pose proof (Z.div_mod (n + L - 1) L ltac:(lia)) as Hdm.
  pose proof (Z.mod_pos_bound (n + L - 1) L ltac:(lia)) as Hmod.
  nia.
Qed.

Lemma ceil_div_nonneg n L : 1 <= L -> 0 <= n -> 0 <= ceil_div n L <= n.
Proof.
  intros HL Hn. pose proof (ceil_div_bounds n L HL Hn). nia.
Qed.

(** [ceil_div n L] is the only integer [c] with [(c-1)*L < n <= c*L]. *)
Lemma ceil_div_unique n L c :
  1 <= L -> 0 <= n -> (c - 1) * L < n <= c * L -> c = ceil_div n L.
Proof.
  intros HL Hn Hc. pose proof (ceil_div_bounds n L HL Hn). nia.
Qed.

Lemma chunk_at_slice D L k :
  1 <= L -> 0 <= k -> k * L < len D ->
  slice D (k * L) (if (k + 1) * L >? len D then len D else (k + 1) * L)
  = Some (chunk_at D L k).
Proof.
  intros HL Hk Hlt. unfold chunk_at.
  assert (0 <= k * L) as Hlo by nia.
  assert ((k + 1) * L = k * L + L) as HkL by lia.
  rewrite Z.gtb_ltb.
  destruct (Z.ltb_spec (len D) ((k + 1) * L)) as [Hgt|Hgt].
  - rewrite slice_Some by lia. f_equal.
    rewrite !take_ge; [done | |]; rewrite length_drop; unfold len in *; lia.
  - rewrite slice_Some by lia. do 2 f_equal. lia.
Qed.

Lemma chunks_from_cons D L k :
  k < ceil_div (len D) L ->
  chunks_from D L k = chunk_at D L k :: chunks_from D L (k + 1).
Proof.
  intros Hk. unfold chunks_from.
  rewrite seqZ_cons by lia. simpl.
  replace (Z.succ k) with (k + 1) by lia.
  by replace (Z.pred (ceil_div (len D) L - k))
    with (ceil_div (len D) L - (k + 1)) by lia.
Qed.

Lemma chunks_from_nil D L k :
  ceil_div (len D) L <= k -> chunks_from D L k = [].
Proof. intros Hk. unfold chunks_from. by rewrite seqZ_nil by lia. Qed.

Lemma chunks_from_length D L k :
  len (chunks_from D L k) = Z.max 0 (ceil_div (len D) L - k).
Proof.
  unfold chunks_from, len. rewrite length_fmap, length_seqZ. lia.
Qed.

Lemma chunks_from_lookup D L k0 (j : nat) :
  Z.of_nat j < ceil_div (len D) L - k0 ->
  chunks_from D L k0 !! j = Some (chunk_at D L (k0 + Z.of_nat j)).
Proof.
  intros Hj. unfold chunks_from.
  by rewrite list_lookup_fmap, lookup_seqZ_lt.
Qed.

Lemma chunks_from_concat D L (n : nat) : forall k,
  1 <= L -> 0 <= k ->
  Z.to_nat (ceil_div (len D) L - k) = n ->
  concat (chunks_from D L k) = drop (Z.to_nat (k * L)) D.
Proof.
  induction n as [|n IH]; intros k HL Hk Hn.
  - rewrite chunks_from_nil by lia. simpl.
    pose proof (ceil_div_bounds (len D) L HL (len_nonneg D)).
    symmetry. apply drop_ge. unfold len in *. nia.
  - rewrite chunks_from_cons by lia. simpl.
    rewrite (IH (k + 1)) by lia.
    unfold chunk_at.
    replace (Z.to_nat ((k + 1) * L)) with (Z.to_nat (k * L) + Z.to_nat L)%nat
      by nia.
    rewrite <- drop_drop. apply take_drop.
Qed.

(** ** The chunking loop *)

(** From a chunk boundary the loop returns the remaining chunks, with any
    fuel that covers them. *)
Lemma splitDOMContent_loop_run fuel : forall D L k chunks,
  valid_string D -> 1 <= L <= max_int ->
  0 <= k <= ceil_div (len D) L ->
  (Z.to_nat (ceil_div (len D) L - k) <= fuel)%nat ->
  splitDOMContent_loop fuel D L (k * L) chunks
  = Returned (chunks ++ chunks_from D L k).
Proof.
  induction fuel as [|fuel IH]; intros D L k chunks HD HL Hk Hfuel;
    pose proof (ceil_div_bounds (len D) L ltac:(lia) (len_nonneg D)) as Hc;
    unfold valid_string, max_string_len, max_int in *.
  - assert (k = ceil_div (len D) L) as Hk' by lia.
    simpl. assert ((k * L <? len D) = false) as -> by nia.
    by rewrite chunks_from_nil, app_nil_r by lia.
  - simpl. destruct (k * L <? len D) eqn:Hlt.
    + assert (k < ceil_div (len D) L) as Hk' by nia.
      assert (int_add (k * L) L = (k + 1) * L) as ->.
      { unfold int_add. rewrite wrap_id; [lia|].
        unfold in_int, min_int, max_int. nia. }
      rewrite chunk_at_slice by lia.
      rewrite IH by (try done; lia).
      by rewrite (chunks_from_cons D L k), <- app_assoc by done.
    + assert (k = ceil_div (len D) L) as Hk' by nia.
      by rewrite chunks_from_nil, app_nil_r by lia.
Qed.

Lemma splitDOMContent_run fuel D L :
  valid_string D -> 1 <= L <= max_int -> (length D <= fuel)%nat ->
  splitDOMContent fuel D L = Returned (chunks_from D L 0).
Proof.
  intros HD HL Hfuel. unfold splitDOMContent.
  pose proof (ceil_div_nonneg (len D) L ltac:(lia) (len_nonneg D)) as Hc.
  change 0 with (0 * L) at 1.
  rewrite splitDOMContent_loop_run; [done..| lia |].
  unfold len in *. lia.
Qed.

Lemma splitDOMContent_loop_zero fuel : forall D chunks,
  D <> [] -> splitDOMContent_loop fuel D 0 0 chunks = OutOfFuel.
Proof.
  induction fuel as [|fuel IH]; intros D chunks HD;
    pose proof (len_pos D HD) as Hlen;
    simpl; assert ((0 <? len D) = true) as -> by lia; [done|].
  change (int_add 0 0) with 0.
  rewrite Z.gtb_ltb. assert ((len D <? 0) = false) as -> by lia.
  rewrite slice_Some by lia. by apply IH.
Qed.

Lemma splitDOMContent_negative fuel D L :
  D <> [] -> min_int <= L < 0 -> splitDOMContent (S fuel) D L = Panicked.
Proof.
  intros HD HL. unfold splitDOMContent.
  pose proof (len_pos D HD) as Hlen.
  simpl. assert ((0 <? len D) = true) as -> by lia.
  assert (int_add 0 L = L) as ->.
  { unfold int_add. apply wrap_id. unfold in_int, min_int, max_int in *. lia. }
  rewrite Z.gtb_ltb. assert ((len D <? L) = false) as -> by lia.
  by rewrite slice_None_neg by lia.
Qed.

Lemma splitDOMContent_empty fuel L : splitDOMContent fuel [] L = Returned [].
Proof. by destruct fuel. Qed.

(** ** Claims about [splitDOMContent] *)

(** C1. Round trip: for every document [D] (a string that fits in memory)
    and every [maxLength >= 1], [splitDOMContent] returns, and the
    concatenation of the returned chunks in order is [D]. *)
Theorem splitDOMContent_concat D L :
  valid_string D -> 1 <= L <= max_int ->
  exists chunks,
    (forall fuel, (length D <= fuel)%nat ->
       splitDOMContent fuel D L = Returned chunks) /\
    concat chunks = D.
Proof.
  intros HD HL. exists (chunks_from D L 0). split.
  - intros fuel Hfuel. by apply splitDOMContent_run.
  - by rewrite (chunks_from_concat D L _ 0 ltac:(lia) ltac:(lia) eq_refl).
Qed.

Lemma splitDOMContent_concat_witness :
  exists chunks,
    (forall fuel, (length (lit "abcdefgh") <= fuel)%nat ->
       splitDOMContent fuel (lit "abcdefgh") 3 = Returned chunks) /\
    concat chunks = lit "abcdefgh".
Proof.
  apply (splitDOMContent_concat (lit "abcdefgh") 3).
  - by vm_compute.
  - unfold max_int. lia.
Defined.

(** C6. Chunk count and offsets: for every document [D] and every
    [maxLength >= 1], [splitDOMContent] returns [ceil(len(D) / maxLength)]
    chunks when [D] is not empty, chunk [k] being
    [D[k*maxLength : min((k+1)*maxLength, len(D))]]; for the empty document
    it returns the empty list, whatever [maxLength] is. *)
Theorem splitDOMContent_chunks :
  (forall D L, valid_string D -> 1 <= L <= max_int ->
     exists chunks,
       (forall fuel, (length D <= fuel)%nat ->
          splitDOMContent fuel D L = Returned chunks) /\
       (D <> [] ->
          len chunks = ceil_div (len D) L /\
          (len chunks - 1) * L < len D <= len chunks * L) /\
       (forall k, 0 <= k < len chunks ->
          exists chunk,
            index chunks k = Some chunk /\
            slice D (k * L) (min ((k + 1) * L) (len D)) = Some chunk)) /\
  (forall fuel L, splitDOMContent fuel [] L = Returned []).
Proof.
  split; [|apply splitDOMContent_empty].
  intros D L HD HL. exists (chunks_from D L 0).
  pose proof (ceil_div_bounds (len D) L ltac:(lia) (len_nonneg D)) as Hc.
  pose proof (ceil_div_nonneg (len D) L ltac:(lia) (len_nonneg D)) as Hc0.
  assert (len (chunks_from D L 0) = ceil_div (len D) L) as Hlen
    by (rewrite chunks_from_length; lia).
  split; [|split].
  - intros fuel Hfuel. by apply splitDOMContent_run.
  - intros _. rewrite Hlen. done.
  - intros k Hk. rewrite Hlen in Hk. exists (chunk_at D L k). split.
    + unfold index. assert ((0 <=? k) = true) as -> by lia.
      rewrite chunks_from_lookup by lia. f_equal. f_equal. lia.
    + assert (k * L < len D) by nia.
      rewrite <- (chunk_at_slice D L k) by lia.
      unfold min. rewrite Z.gtb_ltb.
      destruct (Z.ltb_spec (len D) ((k + 1) * L)),
               (Z.ltb_spec ((k + 1) * L) (len D)); try done; try lia.
      f_equal. lia.
Qed.

Lemma splitDOMContent_chunks_witness :
  exists chunks,
    (forall fuel, (length (lit "abcdefgh") <= fuel)%nat ->
       splitDOMContent fuel (lit "abcdefgh") 3 = Returned chunks) /\
    (lit "abcdefgh" <> [] ->
       len chunks = ceil_div (len (lit "abcdefgh")) 3 /\
       (len chunks - 1) * 3 < len (lit "abcdefgh") <= len chunks * 3) /\
    (forall k, 0 <= k < len chunks ->
       exists chunk,
         index chunks k = Some chunk /\
         slice (lit "abcdefgh") (k * 3)
           (min ((k + 1) * 3) (len (lit "abcdefgh"))) = Some chunk).
Proof.
  apply (proj1 splitDOMContent_chunks (lit "abcdefgh") 3).
  - by vm_compute.
  - unfold max_int. lia.
Defined.

(** C9. Under [maxLength >= 1] the function is total: it returns a chunk
    list for every document, with any fuel that covers the document. The
    source has no guard for [maxLength <= 0]: on a non-empty document it
    rejects nothing, it loops for ever when [maxLength = 0] and panics on
    the slice expression when [maxLength < 0]. *)
Theorem splitDOMContent_total_positive :
  (forall D L, valid_string D -> 1 <= L <= max_int ->
     exists chunks, forall fuel, (length D <= fuel)%nat ->
       splitDOMContent fuel D L = Returned chunks) /\
  (forall D fuel, D <> [] -> splitDOMContent fuel D 0 = OutOfFuel) /\
  (forall D L fuel, D <> [] -> min_int <= L < 0 ->
     splitDOMContent (S fuel) D L = Panicked).
Proof.
  split; [|split].
  - intros D L HD HL. exists (chunks_from D L 0).
    intros fuel Hfuel. by apply splitDOMContent_run.
  - intros D fuel HD. by apply splitDOMContent_loop_zero.
  - intros D L fuel HD HL. by apply splitDOMContent_negative.
Qed.

Lemma splitDOMContent_total_positive_witness :
  (exists chunks, forall fuel, (length (lit "abcdefgh") <= fuel)%nat ->
     splitDOMContent fuel (lit "abcdefgh") 3 = Returned chunks) /\
  splitDOMContent 1000 (lit "ab") 0 = OutOfFuel /\
  splitDOMContent 1 (lit "ab") (-1) = Panicked.
Proof.
  destruct splitDOMContent_total_positive as (Hpos & Hzero & Hneg).
  split; [|split].
  - apply (Hpos (lit "abcdefgh") 3).
    + by vm_compute.
    + unfold max_int. lia.
  - apply (Hzero (lit "ab") 1000%nat). discriminate.
  - apply (Hneg (lit "ab") (-1) 0%nat).
    + discriminate.
    + unfold min_int. lia.
Defined.

(** The scenarios of the specification: 14000 bytes in chunks of 6000 give
    chunks of 6000, 6000 and 2000 bytes; 100000 bytes give 17 chunks. *)
Example splitDOMContent_14000 :
  outcome_map (fmap (M := list) len)
    (splitDOMContent 3 (replicate (Z.to_nat 14000) "x"%byte) 6000)
  = Returned [6000; 6000; 2000].
Proof. by vm_compute. Qed.

Example splitDOMContent_100000 :
  outcome_map len
    (splitDOMContent 17 (replicate (Z.to_nat 100000) "x"%byte) 6000)
  = Returned 17.
Proof. by vm_compute. Qed.

(** Why [valid_string] is assumed: on a string of [2 ^ 62 + 1] bytes, more
    than any address space holds, [i + maxLength] leaves [int] in the second
    iteration and the slice expression panics. *)
Remark splitDOMContent_int_overflow D :
  len D = 2 ^ 62 + 1 -> splitDOMContent 2 D (2 ^ 62) = Panicked.
Proof.
  intros Hlen. unfold splitDOMContent.
  cbn [splitDOMContent_loop].
  rewrite Hlen.
  change (0 <? 2 ^ 62 + 1) with true. cbv iota.
  change (int_add 0 (2 ^ 62)) with (2 ^ 62).
  change (2 ^ 62 >? 2 ^ 62 + 1) with false. cbv iota.
  rewrite slice_Some by (rewrite ?Hlen; lia).
  change (2 ^ 62 <? 2 ^ 62 + 1) with true. cbv iota.
  change (int_add (2 ^ 62) (2 ^ 62)) with (- 2 ^ 63).
  change (- 2 ^ 63 >? 2 ^ 62 + 1) with false. cbv iota.
  by rewrite slice_None_neg by lia.
Qed.

(** ** The wrapping loop *)

Lemma printFormatted_loop_nil fuel lineWidth result :
  printFormatted_loop fuel [] lineWidth result = Returned result.
Proof. by destruct fuel. Qed.

Lemma printFormatted_loop_step fuel text lineWidth result :
  text <> [] ->
  printFormatted_loop (S fuel) text lineWidth result
  = if len text >? lineWidth then
      match slice text 0 lineWidth, slice text lineWidth (len text) with
      | Some line, Some rest =>
          printFormatted_loop fuel rest lineWidth
            (WriteString result (line ++ [LF]))
      | _, _ => Panicked
      end
    else Returned (WriteString result (text ++ [LF])).
Proof.
  intros Htext. pose proof (len_pos text Htext) as Hpos. simpl.
  rewrite (Z.gtb_ltb (len text) 0).
  assert ((0 <? len text) = true) as -> by lia.
  by rewrite printFormatted_loop_nil.
Qed.

Lemma chunk_at_len D L k :
  1 <= L -> 0 <= k < ceil_div (len D) L -> 1 <= len (chunk_at D L k) <= L.
Proof.
  intros HL Hk.
  pose proof (ceil_div_bounds (len D) L HL (len_nonneg D)) as Hc.
  assert (k * L < len D) as Hlt by nia.
  assert (0 <= k * L) as Hlo by nia.
  unfold chunk_at, len in *. rewrite length_take, length_drop. lia.
Qed.

Lemma chunks_from_len D L k0 :
  1 <= L -> 0 <= k0 ->
  Forall (fun chunk => 1 <= len chunk <= L) (chunks_from D L k0).
Proof.
  intros HL Hk0. unfold chunks_from.
  apply Forall_fmap, Forall_seqZ. intros k Hk. simpl.
  apply chunk_at_len; lia.
Qed.

(** With a positive width the loop returns; from a line boundary of the
    text it appends the remaining lines, each followed by a newline. *)
Lemma printFormatted_loop_run fuel : forall text lineWidth k result,
  1 <= lineWidth ->
  0 <= k <= ceil_div (len text) lineWidth ->
  (Z.to_nat (ceil_div (len text) lineWidth - k) <= fuel)%nat ->
  printFormatted_loop fuel (drop (Z.to_nat (k * lineWidth)) text)
    lineWidth result
  = Returned (result
              ++ ((fun line => line ++ [LF]) <$> chunks_from text lineWidth k)).
Proof.
  induction fuel as [|fuel IH]; intros text w k result Hw Hk Hfuel;
    pose proof (ceil_div_bounds (len text) w Hw (len_nonneg text)) as Hc;
    assert (0 <= k * w) as Hlo by nia.
  - assert (k = ceil_div (len text) w) as Hk' by lia.
    rewrite drop_ge by (unfold len in *; nia).
    by rewrite chunks_from_nil, app_nil_r by lia.
  - destruct (Z.ltb_spec (k * w) (len text)) as [Hlt|Hge].
    + assert (k < ceil_div (len text) w) as Hk' by nia.
      assert (len (drop (Z.to_nat (k * w)) text) = len text - k * w) as Hlen
        by (unfold len; rewrite length_drop; unfold len in *; lia).
      rewrite printFormatted_loop_step
        by (intros Hnil; rewrite Hnil in Hlen; unfold len in *; simpl in *; lia).
      rewrite (chunks_from_cons text w k) by done. simpl.
      rewrite Z.gtb_ltb, Hlen.
      destruct (Z.ltb_spec w (len text - k * w)) as [Hlong|Hshort].
      * rewrite !slice_Some by lia.
        rewrite Z.sub_0_r, drop_0, drop_drop.
        rewrite (take_ge (drop _ _))
          by (rewrite length_drop; unfold len in *; lia).
        replace (Z.to_nat (k * w) + Z.to_nat w)%nat
          with (Z.to_nat ((k + 1) * w)) by lia.
        rewrite IH by (try done; nia).
        unfold WriteString, chunk_at. by rewrite <- app_assoc.
      * rewrite chunks_from_nil by nia.
        unfold WriteString, chunk_at. simpl.
        by rewrite take_ge by (rewrite length_drop; unfold len in *; lia).
    + assert (k = ceil_div (len text) w) as Hk' by nia.
      rewrite drop_ge by (unfold len in *; lia).
      by rewrite printFormatted_loop_nil, chunks_from_nil, app_nil_r by lia.
Qed.

Lemma printFormatted_writes_run fuel text lineWidth :
  1 <= lineWidth -> (length text <= fuel)%nat ->
  printFormatted_writes fuel text lineWidth
  = Returned ((fun line => line ++ [LF]) <$> chunks_from text lineWidth 0).
Proof.
  intros Hw Hfuel. unfold printFormatted_writes.
  pose proof (ceil_div_nonneg (len text) lineWidth Hw (len_nonneg text)).
  rewrite <- (drop_0 text) at 1. change 0%nat with (Z.to_nat (0 * lineWidth)).
  rewrite printFormatted_loop_run; [done..| lia |].
  unfold len in *. lia.
Qed.

(** ** Claims about [printFormatted] *)

(** C7. Wrapping: for every text and every width [>= 1], [printFormatted]
    returns; its writes are lines of at most [width] bytes, each followed
    by the same terminator (a newline), the last one included; the lines
    without their terminators concatenate to the text; and the returned
    string is the concatenation of the writes. *)
Theorem printFormatted_wrap text lineWidth :
  1 <= lineWidth ->
  exists lines,
    (forall fuel, (length text <= fuel)%nat ->
       printFormatted_writes fuel text lineWidth
       = Returned ((fun line => line ++ [LF]) <$> lines) /\
       printFormatted fuel text lineWidth
       = Returned (concat ((fun line => line ++ [LF]) <$> lines))) /\
    Forall (fun line => 1 <= len line <= lineWidth) lines /\
    concat lines = text.
Proof.
  intros Hw. exists (chunks_from text lineWidth 0). split; [|split].
  - intros fuel Hfuel. unfold printFormatted.
    by rewrite printFormatted_writes_run.
  - by apply chunks_from_len.
  - by rewrite (chunks_from_concat text lineWidth _ 0 Hw ltac:(lia) eq_refl).
Qed.

Lemma printFormatted_wrap_witness :
  exists lines,
    (forall fuel, (length (lit "abcdefgh") <= fuel)%nat ->
       printFormatted_writes fuel (lit "abcdefgh") 3
       = Returned ((fun line => line ++ [LF]) <$> lines) /\
       printFormatted fuel (lit "abcdefgh") 3
       = Returned (concat ((fun line => line ++ [LF]) <$> lines))) /\
    Forall (fun line => 1 <= len line <= 3) lines /\
    concat lines = lit "abcdefgh".
Proof. apply (printFormatted_wrap (lit "abcdefgh") 3). lia. Defined.

(** C10. The empty text: for every width (positive or not) and any fuel,
    [printFormatted] returns the empty string; nothing is written, so the
    output holds no line terminator. *)
Theorem printFormatted_empty fuel lineWidth :
  printFormatted_writes fuel [] lineWidth = Returned [] /\
  printFormatted fuel [] lineWidth = Returned [].
Proof.
  unfold printFormatted, printFormatted_writes.
  by rewrite printFormatted_loop_nil.
Qed.

(** A text shorter than the width comes back as one line, terminated. *)
Example printFormatted_short :
  printFormatted 1 (lit "OK-1" ++ [LF; LF] ++ lit "OK-2") 80
  = Returned (lit "OK-1" ++ [LF; LF] ++ lit "OK-2" ++ [LF]).
Proof. by vm_compute. Qed.

(** ** Responses *)

Lemma response_writes_parts resp :
  response_writes resp
  = flat_map (fun part => [part_string part; [LF]]) (response_parts resp).
Proof.
  unfold response_writes, response_parts.
  assert (forall parts (b : Builder),
            fold_left (fun b part =>
                         WriteString (WriteString b (part_string part)) [LF])
              parts b
            = b ++ flat_map (fun part => [part_string part; [LF]]) parts)
    as Hparts.
  { induction parts as [|p parts IH]; intros b; simpl.
    - by rewrite app_nil_r.
    - rewrite IH. unfold WriteString. by rewrite <- !app_assoc. }
  generalize (Candidates resp). intros cands.
  rewrite <- (app_nil_l (flat_map _ (flat_map _ _))).
  generalize (@nil gostring) as b.
  induction cands as [|cand cands IH]; intros b; simpl.
  - by rewrite app_nil_r.
  - rewrite IH. destruct (Content_ cand) as [content|]; [|done].
    by rewrite Hparts, flat_map_app, app_assoc.
Qed.

(** The text of a response: every part, followed by a newline. *)
Lemma response_text_parts resp :
  response_text resp
  = concat ((fun part => part_string part ++ [LF]) <$> response_parts resp).
Proof.
  unfold response_text, Builder_String. rewrite response_writes_parts.
  induction (response_parts resp) as [|p parts IH]; [done|].
  simpl. rewrite IH. by rewrite <- app_assoc.
Qed.

Lemma response_text_nil resp :
  response_text resp = [] <-> response_parts resp = [].
Proof.
  rewrite response_text_parts. split.
  - destruct (response_parts resp) as [|p parts]; [done|].
    simpl. intros H. apply app_eq_nil in H as [H _].
    by apply app_eq_nil in H as [_ H].
  - by intros ->.
Qed.

(** ** Traces *)

Lemma invocations_app tr1 tr2 :
  invocations (tr1 ++ tr2) = invocations tr1 ++ invocations tr2.
Proof. unfold invocations. apply omap_app. Qed.

Lemma index_of_nat {A} (s : list A) (i : nat) : index s (Z.of_nat i) = s !! i.
Proof.
  unfold index. rewrite (proj2 (Z.leb_le 0 (Z.of_nat i))) by lia.
  by rewrite Nat2Z.id.
Qed.

Lemma min_bounds a b : min a b <= a /\ min a b <= b /\ (min a b = a \/ min a b = b).
Proof. unfold min. destruct (Z.ltb_spec a b); lia. Qed.

(** ** The loop of [parseWithGenAI] *)

Section parseWithGenAI_loop.

Variable W : World.
Variable domChunks : list gostring.
Variable parseDescription : gostring.
Variable chunkCount : Z.
Hypothesis chunkCount_cap : 0 <= chunkCount <= maxChunks.
Hypothesis chunkCount_len : chunkCount <= len domChunks.

Local Abbreviation loop := (parseWithGenAI_loop W domChunks parseDescription).
Local Abbreviation call := (fun chunk : gostring => (parseDescription, chunk)).

Lemma parseWithGenAI_loop_exit fuel (i : nat) results tr :
  chunkCount <= Z.of_nat i ->
  loop fuel chunkCount (Z.of_nat i) results tr
  = (tr, Returned (Join results [LF], None)).
Proof.
  intros Hi. destruct fuel; simpl;
    by rewrite (proj2 (Z.ltb_ge (Z.of_nat i) chunkCount)) by lia.
Qed.

(** One iteration, for a chunk inside the batch. *)
Lemma parseWithGenAI_loop_step fuel (i : nat) results tr chunk :
  Z.of_nat i < chunkCount ->
  length (invocations tr) = i ->
  domChunks !! i = Some chunk ->
  exists tr1,
    invocations tr1 = invocations tr ++ [call chunk] /\
    loop (S fuel) chunkCount (Z.of_nat i) results tr
    = match GenerateContent W i parseDescription chunk with
      | inr err =>
          (tr1, Returned
                  ([], Some (wrapError
                               (lit "failed to generate content for chunk "
                                ++ format_d (Z.of_nat i + 1) ++ lit ": "
                                ++ Error err) err)))
      | inl resp =>
          loop fuel chunkCount (Z.of_nat (S i))
            (results ++ [response_text resp]) tr1
      end.
Proof.
  intros Hi Htr Hchunk. unfold maxChunks in *.
  assert (int_add (Z.of_nat i) 1 = Z.of_nat i + 1) as Hadd.
  { unfold int_add. apply wrap_id. unfold in_int, min_int, max_int. lia. }
  exists ((tr ++ [EvPrintf (lit "Processing chunk "
                            ++ format_d (Z.of_nat i + 1) ++ lit " of "
                            ++ format_d chunkCount ++ lit "..." ++ [LF])])
          ++ [EvGenerateContent (lit "gemini-1.5-flash")
                parseDescription chunk]).
  split; [by rewrite !invocations_app, app_nil_r|].
  cbn [parseWithGenAI_loop].
  rewrite (proj2 (Z.ltb_lt (Z.of_nat i) chunkCount)) by lia.
  rewrite index_of_nat, Hchunk, Hadd.
  rewrite invocations_app, length_app, Htr. simpl length.
  rewrite Nat.add_0_r.
  destruct (GenerateContent W i parseDescription chunk); [|done].
  by replace (Z.of_nat i + 1) with (Z.of_nat (S i)) by lia.
Qed.

Lemma batch_lookup (i : nat) :
  Z.of_nat i < chunkCount -> exists chunk, domChunks !! i = Some chunk.
Proof.
  intros Hi. apply lookup_lt_is_Some. unfold len in *. lia.
Qed.

(** Every run of the loop returns, and what it sends to the model is a
    run of consecutive chunks starting at the current one and staying
    inside the batch. *)
Lemma parseWithGenAI_loop_returns fuel : forall (i : nat) results tr,
  Z.of_nat i <= chunkCount ->
  length (invocations tr) = i ->
  (Z.to_nat (chunkCount - Z.of_nat i) <= fuel)%nat ->
  exists tr' out (m : nat),
    loop fuel chunkCount (Z.of_nat i) results tr = (tr', Returned out) /\
    Z.of_nat (i + m) <= chunkCount /\
    invocations tr'
    = invocations tr ++ (call <$> take m (drop i domChunks)).
Proof.
  induction fuel as [|fuel IH]; intros i results tr Hi Htr Hfuel.
  - rewrite parseWithGenAI_loop_exit by lia.
    exists tr, (Join results [LF], None), 0%nat.
    split; [done|]. split; [lia|]. by rewrite take_0, app_nil_r.
  - destruct (Z.ltb_spec (Z.of_nat i) chunkCount) as [Hlt|Hge].
    + destruct (batch_lookup i Hlt) as [chunk Hchunk].
      destruct (parseWithGenAI_loop_step fuel i results tr chunk
                  Hlt Htr Hchunk) as (tr1 & Htr1 & ->).
      destruct (GenerateContent W i parseDescription chunk) as [resp|err].
      * destruct (IH (S i) (results ++ [response_text resp]) tr1)
          as (tr' & out & m & Hrun & Hm & Hinv); [lia | | lia |].
        { rewrite Htr1, length_app, Htr. simpl. lia. }
        exists tr', out, (S m). split; [done|]. split; [lia|].
        rewrite Hinv, Htr1, <- app_assoc. f_equal.
        by rewrite (drop_S _ _ _ Hchunk).
      * eexists tr1, _, 1%nat. split; [done|]. split; [lia|].
        rewrite Htr1. f_equal.
        by rewrite (drop_S _ _ _ Hchunk).
    + rewrite parseWithGenAI_loop_exit by lia.
      exists tr, (Join results [LF], None), 0%nat.
      split; [done|]. split; [lia|]. by rewrite take_0, app_nil_r.
Qed.

(** When no call fails, the loop visits the whole rest of the batch and
    returns the join of the per-chunk results. *)
Lemma parseWithGenAI_loop_success fuel : forall (i : nat) results tr,
  Z.of_nat i <= chunkCount ->
  length (invocations tr) = i ->
  (Z.to_nat (chunkCount - Z.of_nat i) <= fuel)%nat ->
  (forall j : nat, (i <= j)%nat -> Z.of_nat j < chunkCount ->
     succeeds W domChunks parseDescription j) ->
  exists tr',
    loop fuel chunkCount (Z.of_nat i) results tr
    = (tr', Returned
              (Join (results
                     ++ (chunk_result W domChunks parseDescription
                           <$> seq i (Z.to_nat (chunkCount - Z.of_nat i))))
                 [LF], None)) /\
    invocations tr'
    = invocations tr
      ++ (call <$> take (Z.to_nat (chunkCount - Z.of_nat i))
                     (drop i domChunks)).
Proof.
  induction fuel as [|fuel IH]; intros i results tr Hi Htr Hfuel Hok.
  - rewrite parseWithGenAI_loop_exit by lia.
    replace (Z.to_nat (chunkCount - Z.of_nat i)) with 0%nat by lia.
    exists tr. simpl. by rewrite !app_nil_r.
  - destruct (Z.ltb_spec (Z.of_nat i) chunkCount) as [Hlt|Hge].
    + destruct (batch_lookup i Hlt) as [chunk Hchunk].
      destruct (parseWithGenAI_loop_step fuel i results tr chunk
                  Hlt Htr Hchunk) as (tr1 & Htr1 & ->).
      destruct (Hok i ltac:(lia) Hlt chunk Hchunk) as [resp Hresp].
      rewrite Hresp.
      destruct (IH (S i) (results ++ [response_text resp]) tr1)
        as (tr' & Hrun & Hinv); [lia | | lia | |].
      { rewrite Htr1, length_app, Htr. simpl. lia. }
      { intros j Hj. apply Hok. lia. }
      exists tr'.
      replace (Z.to_nat (chunkCount - Z.of_nat i))
        with (S (Z.to_nat (chunkCount - Z.of_nat (S i)))) by lia.
      split.
      * rewrite Hrun. simpl. rewrite <- app_assoc. simpl.
        do 4 f_equal. unfold chunk_result, answer.
        by rewrite Hchunk; simpl; rewrite Hresp.
      * rewrite Hinv, Htr1, <- app_assoc. f_equal.
        by rewrite (drop_S _ _ _ Hchunk).
    + rewrite parseWithGenAI_loop_exit by lia.
      replace (Z.to_nat (chunkCount - Z.of_nat i)) with 0%nat by lia.
      exists tr. simpl. by rewrite !app_nil_r.
Qed.

(** When the call for chunk [k] is the first to fail, the loop stops
    there with the error for chunk [k + 1] (counting from 1). *)
Lemma parseWithGenAI_loop_failure fuel : forall (i : nat) results tr
    (k : nat) chunk err,
  (i <= k)%nat -> Z.of_nat k < chunkCount ->
  length (invocations tr) = i ->
  (Z.to_nat (chunkCount - Z.of_nat i) <= fuel)%nat ->
  (forall j : nat, (i <= j < k)%nat ->
     succeeds W domChunks parseDescription j) ->
  domChunks !! k = Some chunk ->
  GenerateContent W k parseDescription chunk = inr err ->
  exists tr',
    loop fuel chunkCount (Z.of_nat i) results tr
    = (tr', Returned
              ([], Some (wrapError
                           (lit "failed to generate content for chunk "
                            ++ format_d (Z.of_nat k + 1) ++ lit ": "
                            ++ Error err) err))) /\
    invocations tr'
    = invocations tr ++ (call <$> take (S k - i) (drop i domChunks)).
Proof.
  induction fuel as [|fuel IH];
    intros i results tr k chunk err Hik Hk Htr Hfuel Hok Hchunk Herr;
    [lia|].
  destruct (decide (i = k)) as [->|Hne].
  - destruct (parseWithGenAI_loop_step fuel k results tr chunk
                Hk Htr Hchunk) as (tr1 & Htr1 & ->).
    rewrite Herr. exists tr1. split; [done|].
    rewrite Htr1. f_equal.
    replace (S k - k)%nat with 1%nat by lia.
    by rewrite (drop_S _ _ _ Hchunk).
  - destruct (batch_lookup i ltac:(lia)) as [chunk_i Hchunk_i].
    destruct (parseWithGenAI_loop_step fuel i results tr chunk_i
                ltac:(lia) Htr Hchunk_i) as (tr1 & Htr1 & ->).
    destruct (Hok i ltac:(lia) chunk_i Hchunk_i) as [resp Hresp].
    rewrite Hresp.
    destruct (IH (S i) (results ++ [response_text resp]) tr1 k chunk err)
      as (tr' & Hrun & Hinv); [lia | lia | | lia | | done | done |].
    { rewrite Htr1, length_app, Htr. simpl. lia. }
    { intros j Hj. apply Hok. lia. }
    exists tr'. split; [done|].
    rewrite Hinv, Htr1, <- app_assoc. f_equal.
    replace (S k - i)%nat with (S (S k - S i)) by lia.
    by rewrite (drop_S _ _ _ Hchunk_i).
Qed.

End parseWithGenAI_loop.

(** ** [parseWithGenAI] as a whole *)

Lemma chunkCount_bounds (domChunks : list gostring) :
  0 <= min (len domChunks) maxChunks <= maxChunks /\
  min (len domChunks) maxChunks <= len domChunks.
Proof.
  pose proof (min_bounds (len domChunks) maxChunks).
  pose proof (len_nonneg domChunks). unfold maxChunks in *. lia.
Qed.

Lemma parseWithGenAI_configured W domChunks parseDescription :
  configured W ->
  parseWithGenAI W domChunks parseDescription
  = let chunkCount := min (len domChunks) maxChunks in
    let '(tr, out) :=
      parseWithGenAI_loop W domChunks parseDescription
        (Z.to_nat chunkCount) chunkCount (Z.of_nat 0) []
        [EvNewClient (Getenv W "GEMINI_API_KEY")] in
    (tr ++ [EvClose], out).
Proof.
  intros [Hkey Hclient]. unfold parseWithGenAI.
  destruct (decide (Getenv W "GEMINI_API_KEY" = [])); [done|].
  by rewrite Hclient.
Qed.

Lemma invocations_close tr : invocations (tr ++ [EvClose]) = invocations tr.
Proof. by rewrite invocations_app, app_nil_r. Qed.

(** Whatever the model answers, a configured run returns, and the calls it
    made are a prefix of the batch. *)
Lemma parseWithGenAI_returns W domChunks parseDescription :
  configured W ->
  exists tr out (m : nat),
    parseWithGenAI W domChunks parseDescription = (tr, Returned out) /\
    Z.of_nat m <= min (len domChunks) maxChunks /\
    invocations tr = (fun chunk => (parseDescription, chunk))
                       <$> take m domChunks.
Proof.
  intros HW. rewrite parseWithGenAI_configured by done. cbv zeta.
  destruct (chunkCount_bounds domChunks) as [Hcap Hlen].
  destruct (parseWithGenAI_loop_returns W domChunks parseDescription
              _ Hcap Hlen (Z.to_nat (min (len domChunks) maxChunks))
              0%nat [] [EvNewClient (Getenv W "GEMINI_API_KEY")])
    as (tr & out & m & -> & Hm & Hinv); [lia | done | lia |].
  exists (tr ++ [EvClose]), out, m. split; [done|]. split; [lia|].
  by rewrite invocations_close, Hinv.
Qed.

Lemma parseWithGenAI_success W domChunks parseDescription :
  configured W ->
  (forall j : nat, Z.of_nat j < min (len domChunks) maxChunks ->
     succeeds W domChunks parseDescription j) ->
  exists tr,
    parseWithGenAI W domChunks parseDescription
    = (tr, Returned
             (Join (chunk_result W domChunks parseDescription
                      <$> seq 0 (Z.to_nat (min (len domChunks) maxChunks)))
                [LF], None)) /\
    invocations tr
    = (fun chunk => (parseDescription, chunk))
        <$> take (Z.to_nat (min (len domChunks) maxChunks)) domChunks.
Proof.
  intros HW Hok. rewrite parseWithGenAI_configured by done. cbv zeta.
  destruct (chunkCount_bounds domChunks) as [Hcap Hlen].
  destruct (parseWithGenAI_loop_success W domChunks parseDescription
              _ Hcap Hlen (Z.to_nat (min (len domChunks) maxChunks))
              0%nat [] [EvNewClient (Getenv W "GEMINI_API_KEY")])
    as (tr & -> & Hinv); [lia | done | lia | |].
  { intros j _ Hj. by apply Hok. }
  exists (tr ++ [EvClose]).
  rewrite Z.sub_0_r in *. split; [done|].
  by rewrite invocations_close, Hinv.
Qed.

Lemma parseWithGenAI_failure W domChunks parseDescription (k : nat) chunk err :
  configured W ->
  Z.of_nat k < min (len domChunks) maxChunks ->
  (forall j : nat, (j < k)%nat -> succeeds W domChunks parseDescription j) ->
  domChunks !! k = Some chunk ->
  GenerateContent W k parseDescription chunk = inr err ->
  exists tr,
    parseWithGenAI W domChunks parseDescription
    = (tr, Returned
             ([], Some (wrapError
                          (lit "failed to generate content for chunk "
                           ++ format_d (Z.of_nat k + 1) ++ lit ": "
                           ++ Error err) err))) /\
    invocations tr
    = (fun chunk => (parseDescription, chunk)) <$> take (S k) domChunks.
Proof.
  intros HW Hk Hok Hchunk Herr.
  rewrite parseWithGenAI_configured by done. cbv zeta.
  destruct (chunkCount_bounds domChunks) as [Hcap Hlen].
  destruct (parseWithGenAI_loop_failure W domChunks parseDescription
              _ Hcap Hlen (Z.to_nat (min (len domChunks) maxChunks))
              0%nat [] [EvNewClient (Getenv W "GEMINI_API_KEY")]
              k chunk err)
    as (tr & -> & Hinv); [lia | done | done | lia | | done | done |].
  { intros j Hj. apply Hok. lia. }
  exists (tr ++ [EvClose]). split; [done|].
  by rewrite invocations_close, Hinv.
Qed.

(** Either every call of the batch succeeds, or some call is the first to
    fail. *)
Lemma first_failure W (domChunks : list gostring) parseDescription (n : nat) :
  (n <= length domChunks)%nat ->
  (forall j : nat, (j < n)%nat -> succeeds W domChunks parseDescription j) \/
  (exists (k : nat) chunk err,
     (k < n)%nat /\
     (forall j : nat, (j < k)%nat ->
        succeeds W domChunks parseDescription j) /\
     domChunks !! k = Some chunk /\
     GenerateContent W k parseDescription chunk = inr err).
Proof.
  induction n as [|n IH]; intros Hn; [left; lia|].
  destruct (IH ltac:(lia)) as [Hok|(k & chunk & err & Hk & Hrest)].
  - destruct (lookup_lt_is_Some_2 domChunks n ltac:(lia)) as [chunk Hchunk].
    destruct (GenerateContent W n parseDescription chunk) as [resp|err] eqn:Hn'.
    + left. intros j Hj. destruct (decide (j = n)) as [->|]; [|apply Hok; lia].
      intros chunk' Hchunk'. exists resp. congruence.
    + right. exists n, chunk, err. split; [lia|]. by split.
  - right. exists k, chunk, err. split; [lia | done].
Qed.

Lemma take_batch {A} (l : list A) :
  take (Z.to_nat (min (len l) maxChunks)) l = take 16 l.
Proof.
  unfold min, maxChunks, len.
  destruct (Z.ltb_spec (Z.of_nat (length l)) 16); [|done].
  by rewrite !take_ge by lia.
Qed.

(** ** Claims about [parseWithGenAI] *)

(** C2, as the code has it. With a batch of three chunks whose responses
    hold exactly one text part each, ["OK-1"], ["OK-2"] and ["OK-3"], the
    run returns no error and the aggregate
    ["OK-1\n\nOK-2\n\nOK-3\n"]: each per-chunk result is the part followed
    by a newline, and the per-chunk results are joined with a single
    newline, in batch order. *)
Theorem parseWithGenAI_three_chunks W c1 c2 c3 parseDescription r1 r2 r3 :
  configured W ->
  GenerateContent W 0 parseDescription c1 = inl r1 ->
  GenerateContent W 1 parseDescription c2 = inl r2 ->
  GenerateContent W 2 parseDescription c3 = inl r3 ->
  response_parts r1 = [Text (lit "OK-1")] ->
  response_parts r2 = [Text (lit "OK-2")] ->
  response_parts r3 = [Text (lit "OK-3")] ->
  exists tr,
    parseWithGenAI W [c1; c2; c3] parseDescription
    = (tr, Returned
             (Join [lit "OK-1" ++ [LF]; lit "OK-2" ++ [LF]; lit "OK-3" ++ [LF]]
                [LF], None)) /\
    Join [lit "OK-1" ++ [LF]; lit "OK-2" ++ [LF]; lit "OK-3" ++ [LF]] [LF]
    = lit "OK-1" ++ [LF; LF] ++ lit "OK-2" ++ [LF; LF] ++ lit "OK-3" ++ [LF] /\
    invocations tr
    = [(parseDescription, c1); (parseDescription, c2); (parseDescription, c3)].
Proof.
  intros HW H1 H2 H3 Hp1 Hp2 Hp3.
  destruct (parseWithGenAI_success W [c1; c2; c3] parseDescription HW)
    as (tr & Hrun & Hinv).
  { intros j Hj chunk Hchunk.
    destruct j as [|[|[|j]]]; simpl in Hchunk; try done;
      injection Hchunk as <-; eauto. }
  exists tr. split; [|split; [done|]].
  - rewrite Hrun. do 2 f_equal.
    change (Z.to_nat (min (len [c1; c2; c3]) maxChunks)) with 3%nat.
    simpl. unfold chunk_result, answer. simpl.
    rewrite H1, H2, H3, !response_text_parts, Hp1, Hp2, Hp3. done.
  - by rewrite Hinv.
Qed.

Lemma parseWithGenAI_three_chunks_witness :
  exists tr,
    parseWithGenAI ok_world three_chunks (lit "list the prices")
    = (tr, Returned
             (Join [lit "OK-1" ++ [LF]; lit "OK-2" ++ [LF]; lit "OK-3" ++ [LF]]
                [LF], None)) /\
    Join [lit "OK-1" ++ [LF]; lit "OK-2" ++ [LF]; lit "OK-3" ++ [LF]] [LF]
    = lit "OK-1" ++ [LF; LF] ++ lit "OK-2" ++ [LF; LF] ++ lit "OK-3" ++ [LF] /\
    invocations tr
    = [(lit "list the prices", lit "aaa"); (lit "list the prices", lit "bbb");
       (lit "list the prices", lit "cc")].
Proof.
  apply (parseWithGenAI_three_chunks ok_world (lit "aaa") (lit "bbb")
           (lit "cc") (lit "list the prices")
           (response_of [Text (lit "OK-1")])
           (response_of [Text (lit "OK-2")])
           (response_of [Text (lit "OK-3")])).
  - split; by vm_compute.
  - reflexivity.
  - reflexivity.
  - reflexivity.
  - reflexivity.
  - reflexivity.
  - reflexivity.
Defined.

(** C2, as the specification words it, fails: on three chunks answered
    with the single text parts ["OK-1"], ["OK-2"], ["OK-3"] the aggregate
    is not ["OK-1\nOK-2\nOK-3"]. *)
Lemma parseWithGenAI_three_chunks_not_separated :
  answer ok_world three_chunks (lit "list the prices") 0
  = Some (inl (response_of [Text (lit "OK-1")])) /\
  answer ok_world three_chunks (lit "list the prices") 1
  = Some (inl (response_of [Text (lit "OK-2")])) /\
  answer ok_world three_chunks (lit "list the prices") 2
  = Some (inl (response_of [Text (lit "OK-3")])) /\
  snd (parseWithGenAI ok_world three_chunks (lit "list the prices"))
  = Returned (lit "OK-1" ++ [LF; LF] ++ lit "OK-2" ++ [LF; LF]
              ++ lit "OK-3" ++ [LF], None) /\
  snd (parseWithGenAI ok_world three_chunks (lit "list the prices"))
  <> Returned (lit "OK-1" ++ [LF] ++ lit "OK-2" ++ [LF] ++ lit "OK-3", None).
Proof. repeat split; by vm_compute. Qed.

(** C3. The cap: in every configured run the calls to the model are a
    prefix, in order, of the first [min(len(chunks), 16)] chunks; and when
    no call fails they are exactly those chunks, the chunks beyond the cap
    are not sent, and no error is returned. *)
Theorem parseWithGenAI_cap W domChunks parseDescription :
  configured W ->
  (exists tr out (m : nat),
     parseWithGenAI W domChunks parseDescription = (tr, Returned out) /\
     Z.of_nat m <= min (len domChunks) maxChunks /\
     invocations tr
     = (fun chunk => (parseDescription, chunk)) <$> take m domChunks) /\
  ((forall j : nat, Z.of_nat j < min (len domChunks) maxChunks ->
      succeeds W domChunks parseDescription j) ->
   exists tr text,
     parseWithGenAI W domChunks parseDescription
     = (tr, Returned (text, None)) /\
     invocations tr
     = (fun chunk => (parseDescription, chunk)) <$> take 16 domChunks /\
     len (invocations tr) = min (len domChunks) 16).
Proof.
  intros HW. split; [by apply parseWithGenAI_returns|].
  intros Hok.
  destruct (parseWithGenAI_success W domChunks parseDescription HW Hok)
    as (tr & Hrun & Hinv).
  rewrite take_batch in Hinv.
  exists tr. eexists. split; [done|]. split; [done|].
  rewrite Hinv. unfold len. rewrite length_fmap, length_take.
  unfold min. destruct (Z.ltb_spec (Z.of_nat (length domChunks)) 16); lia.
Qed.

Lemma parseWithGenAI_cap_witness :
  len seventeen_chunks = 17 /\
  exists tr text,
    parseWithGenAI ok_world seventeen_chunks (lit "list the prices")
    = (tr, Returned (text, None)) /\
    invocations tr
    = (fun chunk => (lit "list the prices", chunk))
        <$> take 16 seventeen_chunks /\
    len (invocations tr) = min (len seventeen_chunks) 16.
Proof.
  split; [reflexivity|].
  apply (parseWithGenAI_cap ok_world seventeen_chunks (lit "list the prices")).
  - split; by vm_compute.
  - intros j Hj chunk Hchunk. eexists. reflexivity.
Defined.

(** C4. Abort on the first failure: when the call for chunk [k] (counting
    from 0) is the first that fails, the run stops there: the chunks sent
    are exactly the first [k + 1], the string result is empty, and the
    error names chunk [k + 1] and wraps the error of the call. *)
Theorem parseWithGenAI_abort W domChunks parseDescription (k : nat) chunk err :
  configured W ->
  Z.of_nat k < min (len domChunks) maxChunks ->
  (forall j : nat, (j < k)%nat -> succeeds W domChunks parseDescription j) ->
  domChunks !! k = Some chunk ->
  GenerateContent W k parseDescription chunk = inr err ->
  exists tr e,
    parseWithGenAI W domChunks parseDescription
    = (tr, Returned ([], Some e)) /\
    invocations tr
    = (fun chunk => (parseDescription, chunk)) <$> take (S k) domChunks /\
    Error e = lit "failed to generate content for chunk "
              ++ format_d (Z.of_nat k + 1) ++ lit ": " ++ Error err /\
    Unwrap e = Some err.
Proof.
  intros HW Hk Hok Hchunk Herr.
  destruct (parseWithGenAI_failure W domChunks parseDescription k chunk err
              HW Hk Hok Hchunk Herr) as (tr & Hrun & Hinv).
  exists tr. eexists. split; [exact Hrun|]. by split.
Qed.

Lemma parseWithGenAI_abort_witness :
  format_d (Z.of_nat 1 + 1) = lit "2" /\
  exists tr e,
    parseWithGenAI second_fails three_chunks (lit "list the prices")
    = (tr, Returned ([], Some e)) /\
    invocations tr
    = (fun chunk => (lit "list the prices", chunk)) <$> take 2 three_chunks /\
    Error e = lit "failed to generate content for chunk "
              ++ format_d (Z.of_nat 1 + 1) ++ lit ": "
              ++ Error (errorString (lit "connection reset")) /\
    Unwrap e = Some (errorString (lit "connection reset")).
Proof.
  split; [reflexivity|].
  apply (parseWithGenAI_abort second_fails three_chunks
           (lit "list the prices") 1 (lit "bbb")
           (errorString (lit "connection reset"))).
  - split; by vm_compute.
  - by vm_compute.
  - intros j Hj chunk Hchunk. destruct j as [|j]; [|lia].
    eexists. reflexivity.
  - reflexivity.
  - reflexivity.
Defined.

(** C5. Missing credential: when [GEMINI_API_KEY] is unset (or empty) the
    run returns the error ["GEMINI_API_KEY not set"] and an empty string,
    and its trace is empty: no client was created and no call was made. *)
Theorem parseWithGenAI_missing_key W domChunks parseDescription :
  environ W !! "GEMINI_API_KEY" = None \/
  environ W !! "GEMINI_API_KEY" = Some ([] : gostring) ->
  parseWithGenAI W domChunks parseDescription
  = ([], Returned ([], Some (errorString (lit "GEMINI_API_KEY not set")))).
Proof.
  intros Hkey. unfold parseWithGenAI.
  assert (Getenv W "GEMINI_API_KEY" = []) as ->
    by (unfold Getenv; destruct Hkey as [-> | ->]; done).
  by destruct (decide _).
Qed.

Lemma parseWithGenAI_missing_key_witness :
  parseWithGenAI unconfigured three_chunks (lit "list the prices")
  = ([], Returned ([], Some (errorString (lit "GEMINI_API_KEY not set")))).
Proof.
  apply (parseWithGenAI_missing_key unconfigured three_chunks
           (lit "list the prices")).
  left. reflexivity.
Defined.

(** C8, as the code has it. In a configured run whose calls all succeed
    the aggregate joins the per-chunk results and no error is returned; a
    chunk whose response has no part at all (no candidate, or only
    candidates with a nil content or an empty part list) contributes the
    empty string, and a response contributes the empty string only then.
    An error is returned only when a model call failed. *)
Theorem parseWithGenAI_empty_response W domChunks parseDescription :
  configured W ->
  ((forall j : nat, Z.of_nat j < min (len domChunks) maxChunks ->
      succeeds W domChunks parseDescription j) ->
   exists tr,
     parseWithGenAI W domChunks parseDescription
     = (tr, Returned
              (Join (chunk_result W domChunks parseDescription
                       <$> seq 0 (Z.to_nat (min (len domChunks) maxChunks)))
                 [LF], None)) /\
     forall (j : nat) chunk resp,
       domChunks !! j = Some chunk ->
       GenerateContent W j parseDescription chunk = inl resp ->
       response_parts resp = [] ->
       chunk_result W domChunks parseDescription j = []) /\
  (forall resp, response_text resp = [] <-> response_parts resp = []) /\
  (forall tr text e,
     parseWithGenAI W domChunks parseDescription
     = (tr, Returned (text, Some e)) ->
     exists (k : nat) chunk err,
       domChunks !! k = Some chunk /\
       GenerateContent W k parseDescription chunk = inr err /\
       Unwrap e = Some err).
Proof.
  intros HW. split; [|split; [apply response_text_nil|]].
  - intros Hok.
    destruct (parseWithGenAI_success W domChunks parseDescription HW Hok)
      as (tr & Hrun & _).
    exists tr. split; [done|].
    intros j chunk resp Hchunk Hresp Hparts.
    unfold chunk_result, answer. rewrite Hchunk. simpl. rewrite Hresp.
    by apply response_text_nil.
  - intros tr text e Hrun.
    destruct (chunkCount_bounds domChunks) as [Hcap Hlen].
    destruct (first_failure W domChunks parseDescription
                (Z.to_nat (min (len domChunks) maxChunks)))
      as [Hok|(k & chunk & err & Hk & Hok & Hchunk & Herr)].
    { unfold len in *. lia. }
    + destruct (parseWithGenAI_success W domChunks parseDescription HW)
        as (tr' & Hrun' & _); [intros j Hj; apply Hok; lia|].
      congruence.
    + destruct (parseWithGenAI_failure W domChunks parseDescription
                  k chunk err HW ltac:(lia) Hok Hchunk Herr)
        as (tr' & Hrun' & _).
      exists k, chunk, err. split; [done|]. split; [done|].
      rewrite Hrun in Hrun'. by injection Hrun' as _ _ ->.
Qed.

Lemma parseWithGenAI_empty_response_witness :
  exists tr,
    parseWithGenAI second_empty three_chunks (lit "list the prices")
    = (tr, Returned
             (Join (chunk_result second_empty three_chunks
                      (lit "list the prices")
                      <$> seq 0 (Z.to_nat (min (len three_chunks) maxChunks)))
                [LF], None)) /\
    chunk_result second_empty three_chunks (lit "list the prices") 1 = [].
Proof.
  destruct (parseWithGenAI_empty_response second_empty three_chunks
              (lit "list the prices")) as (Hsucc & _ & _).
  { split; by vm_compute. }
  destruct Hsucc as (tr & Hrun & Hempty).
  { intros j Hj chunk Hchunk. destruct j as [|[|j]]; eexists; reflexivity. }
  exists tr. split; [exact Hrun|].
  apply (Hempty 1%nat (lit "bbb") {| Candidates := [] |}); reflexivity.
Defined.

(** C8, as the specification words it, fails: a response whose only part
    is not text contributes a non-empty per-chunk result. *)
Lemma parseWithGenAI_non_text_part_printed :
  answer blob_world [lit "aaa"] (lit "list the prices") 0
  = Some (inl (response_of [OtherPart (lit "{image/png []}")])) /\
  existsb is_text
    (response_parts (response_of [OtherPart (lit "{image/png []}")]))
  = false /\
  chunk_result blob_world [lit "aaa"] (lit "list the prices") 0
  = lit "{image/png []}" ++ [LF] /\
  chunk_result blob_world [lit "aaa"] (lit "list the prices") 0 <> [] /\
  snd (parseWithGenAI blob_world [lit "aaa"] (lit "list the prices"))
  = Returned (lit "{image/png []}" ++ [LF], None).
Proof. repeat split; by vm_compute. Qed.

(** * Further properties of the code *)

(** ** [min] *)

(** [min] returns the smaller of its arguments, in either order. *)
Theorem min_smaller a b :
  min a b = Z.min a b /\ min a b = min b a /\ (min a b = a \/ min a b = b).
Proof.
  unfold min.
  destruct (Z.ltb_spec a b), (Z.ltb_spec b a); lia.
Qed.

(** ** More on [splitDOMContent] *)

Lemma splitDOMContent_loop_exit fuel D L i chunks :
  len D <= i -> splitDOMContent_loop fuel D L i chunks = Returned chunks.
Proof.
  intros Hi. destruct fuel; simpl;
    by rewrite (proj2 (Z.ltb_ge i (len D))) by lia.
Qed.

Lemma chunk_at_len_full D L k :
  1 <= L -> 0 <= k -> (k + 1) * L <= len D -> len (chunk_at D L k) = L.
Proof.
  intros HL Hk Hfull. assert (0 <= k * L) as Hlo by nia.
  unfold chunk_at, len in *. rewrite length_take, length_drop. lia.
Qed.

Lemma chunk_at_len_last D L k :
  1 <= L -> 0 <= k -> k * L <= len D <= (k + 1) * L ->
  len (chunk_at D L k) = len D - k * L.
Proof.
  intros HL Hk Hfull. assert (0 <= k * L) as Hlo by nia.
  unfold chunk_at, len in *. rewrite length_take, length_drop. lia.
Qed.

Lemma chunks_from_lookup_inv D L (j : nat) chunk :
  1 <= L ->
  chunks_from D L 0 !! j = Some chunk ->
  Z.of_nat j < ceil_div (len D) L /\ chunk = chunk_at D L (Z.of_nat j).
Proof.
  intros HL Hj.
  pose proof (ceil_div_nonneg (len D) L HL (len_nonneg D)) as Hc.
  assert (Z.of_nat j < ceil_div (len D) L) as Hlt.
  { apply lookup_lt_Some in Hj.
    pose proof (chunks_from_length D L 0) as Hlen. unfold len in *. lia. }
  split; [done|].
  rewrite chunks_from_lookup in Hj by lia. by injection Hj as <-.
Qed.

(** Chunk sizes: with [maxLength >= 1] no chunk is empty and none is
    longer than [maxLength]; every chunk but the last has exactly
    [maxLength] bytes, and the last one holds what is left. *)
Theorem splitDOMContent_chunk_sizes D L :
  valid_string D -> 1 <= L <= max_int ->
  exists chunks,
    (forall fuel, (length D <= fuel)%nat ->
       splitDOMContent fuel D L = Returned chunks) /\
    Forall (fun chunk => 1 <= len chunk <= L) chunks /\
    (forall (k : nat) chunk,
       chunks !! k = Some chunk -> Z.of_nat k + 1 < len chunks ->
       len chunk = L) /\
    (forall chunk,
       last chunks = Some chunk ->
       len chunk = len D - (len chunks - 1) * L).
Proof.
  intros HD HL. exists (chunks_from D L 0).
  pose proof (ceil_div_bounds (len D) L ltac:(lia) (len_nonneg D)) as Hc.
  pose proof (ceil_div_nonneg (len D) L ltac:(lia) (len_nonneg D)) as Hc0.
  assert (len (chunks_from D L 0) = ceil_div (len D) L) as Hlen
    by (rewrite chunks_from_length; lia).
  split; [|split; [|split]].
  - intros fuel Hfuel. by apply splitDOMContent_run.
  - apply chunks_from_len; lia.
  - intros k chunk Hk Hnotlast. rewrite Hlen in Hnotlast.
    apply chunks_from_lookup_inv in Hk as [_ ->]; [|lia].
    apply chunk_at_len_full; [lia | lia | nia].
  - intros chunk Hlast. rewrite last_lookup in Hlast.
    pose proof Hlast as Hlast'.
    apply chunks_from_lookup_inv in Hlast as [Hlt ->]; [|lia].
    apply lookup_lt_Some in Hlast'.
    rewrite Hlen.
    replace (Z.of_nat (Init.Nat.pred (length (chunks_from D L 0))))
      with (ceil_div (len D) L - 1) by (unfold len in *; lia).
    apply chunk_at_len_last; [lia | lia | lia].
Qed.

Lemma splitDOMContent_chunk_sizes_witness :
  exists chunks,
    (forall fuel, (length (lit "abcdefgh") <= fuel)%nat ->
       splitDOMContent fuel (lit "abcdefgh") 3 = Returned chunks) /\
    Forall (fun chunk => 1 <= len chunk <= 3) chunks /\
    (forall (k : nat) chunk,
       chunks !! k = Some chunk -> Z.of_nat k + 1 < len chunks ->
       len chunk = 3) /\
    (forall chunk,
       last chunks = Some chunk ->
       len chunk = len (lit "abcdefgh") - (len chunks - 1) * 3).
Proof.
  apply (splitDOMContent_chunk_sizes (lit "abcdefgh") 3).
  - by vm_compute.
  - unfold max_int. lia.
Defined.

(** A document no longer than [maxLength] is not split: the result is the
    document itself as the only chunk, after one turn of the loop. *)
Theorem splitDOMContent_short D L fuel :
  D <> [] -> len D <= L <= max_int ->
  splitDOMContent (S fuel) D L = Returned [D].
Proof.
  intros HD HL. pose proof (len_pos D HD) as Hpos.
  unfold splitDOMContent. cbn [splitDOMContent_loop].
  rewrite (proj2 (Z.ltb_lt 0 (len D))) by lia.
  assert (int_add 0 L = L) as ->.
  { unfold int_add. apply wrap_id. unfold in_int, min_int, max_int in *. lia. }
  assert ((if L >? len D then len D else L) = len D) as ->.
  { rewrite Z.gtb_ltb. destruct (Z.ltb_spec (len D) L); lia. }
  rewrite slice_Some by lia.
  rewrite Z.sub_0_r, drop_0, take_ge by (unfold len; lia).
  by rewrite splitDOMContent_loop_exit by lia.
Qed.

Lemma splitDOMContent_short_witness :
  splitDOMContent 1 (lit "abc") 6000 = Returned [lit "abc"].
Proof.
  apply (splitDOMContent_short (lit "abc") 6000 0).
  - discriminate.
  - by vm_compute.
Defined.

(** ** More on [printFormatted] *)

Lemma terminated_concat_len (lines : list gostring) :
  len (concat ((fun line => line ++ [LF]) <$> lines))
  = len (concat lines) + len lines.
Proof.
  unfold len. induction lines as [|line lines IH]; [done|].
  rewrite fmap_cons, !concat_cons, !length_app. cbn [length]. lia.
Qed.

Lemma terminated_concat_last (lines : list gostring) :
  lines <> [] ->
  last (concat ((fun line => line ++ [LF]) <$> lines)) = Some LF.
Proof.
  destruct lines as [|line lines _] using rev_ind; [done|]. intros _.
  rewrite fmap_app, concat_app. simpl.
  by rewrite app_nil_r, app_assoc, last_snoc.
Qed.

(** The formatter cuts its text exactly where the chunker would: the
    output of [printFormatted(text, width)] is the chunks of
    [splitDOMContent(text, width)], each followed by a newline. *)
Theorem printFormatted_as_chunks text lineWidth :
  valid_string text -> 1 <= lineWidth <= max_int ->
  exists chunks,
    forall fuel, (length text <= fuel)%nat ->
      splitDOMContent fuel text lineWidth = Returned chunks /\
      printFormatted fuel text lineWidth
      = Returned (concat ((fun chunk => chunk ++ [LF]) <$> chunks)).
Proof.
  intros Htext Hw. exists (chunks_from text lineWidth 0).
  intros fuel Hfuel. split.
  - by apply splitDOMContent_run.
  - unfold printFormatted. by rewrite printFormatted_writes_run by lia.
Qed.

Lemma printFormatted_as_chunks_witness :
  exists chunks,
    forall fuel, (length (lit "abcdefgh") <= fuel)%nat ->
      splitDOMContent fuel (lit "abcdefgh") 3 = Returned chunks /\
      printFormatted fuel (lit "abcdefgh") 3
      = Returned (concat ((fun chunk => chunk ++ [LF]) <$> chunks)).
Proof.
  apply (printFormatted_as_chunks (lit "abcdefgh") 3).
  - by vm_compute.
  - unfold max_int. lia.
Defined.

(** Size of the output: with [width >= 1] the output has one byte more
    than the text for every started run of [width] bytes, that is
    [len(text) + ceil(len(text) / width)] bytes, and it ends in a newline
    unless the text is empty. *)
Theorem printFormatted_size text lineWidth :
  1 <= lineWidth ->
  exists out,
    (forall fuel, (length text <= fuel)%nat ->
       printFormatted fuel text lineWidth = Returned out) /\
    len out = len text + ceil_div (len text) lineWidth /\
    (text <> [] -> last out = Some LF).
Proof.
  intros Hw.
  exists (concat ((fun line => line ++ [LF])
                    <$> chunks_from text lineWidth 0)).
  pose proof (ceil_div_nonneg (len text) lineWidth Hw (len_nonneg text)).
  split; [|split].
  - intros fuel Hfuel. unfold printFormatted.
    by rewrite printFormatted_writes_run.
  - rewrite terminated_concat_len, chunks_from_length.
    rewrite (chunks_from_concat text lineWidth _ 0 Hw ltac:(lia) eq_refl).
    change (Z.to_nat (0 * lineWidth)) with 0%nat. rewrite drop_0. lia.
  - intros Htext. apply terminated_concat_last.
    pose proof (len_pos text Htext).
    pose proof (ceil_div_bounds (len text) lineWidth Hw (len_nonneg text)).
    rewrite chunks_from_cons by nia. done.
Qed.

Lemma printFormatted_size_witness :
  exists out,
    (forall fuel, (length (lit "abcdefgh") <= fuel)%nat ->
       printFormatted fuel (lit "abcdefgh") 3 = Returned out) /\
    len out = len (lit "abcdefgh") + ceil_div (len (lit "abcdefgh")) 3 /\
    (lit "abcdefgh" <> [] -> last out = Some LF).
Proof. apply (printFormatted_size (lit "abcdefgh") 3). lia. Defined.

Lemma printFormatted_loop_zero fuel : forall text result,
  text <> [] -> printFormatted_loop fuel text 0 result = OutOfFuel.
Proof.
  induction fuel as [|fuel IH]; intros text result Htext;
    pose proof (len_pos text Htext) as Hpos.
  - simpl. rewrite Z.gtb_ltb. by rewrite (proj2 (Z.ltb_lt 0 (len text))).
  - rewrite printFormatted_loop_step by done.
    rewrite Z.gtb_ltb, (proj2 (Z.ltb_lt 0 (len text))) by done.
    rewrite !slice_Some by lia.
    rewrite Z.sub_0_r, drop_0, take_ge by (unfold len; lia).
    by apply IH.
Qed.

(** The width is not guarded either: on a text that is not empty,
    [printFormatted] never returns when [lineWidth = 0] (it emits empty
    lines for ever), and panics on [text[:lineWidth]] when
    [lineWidth < 0]. *)
Theorem printFormatted_bad_width :
  (forall text fuel, text <> [] -> printFormatted fuel text 0 = OutOfFuel) /\
  (forall text lineWidth fuel, text <> [] -> lineWidth < 0 ->
     printFormatted (S fuel) text lineWidth = Panicked).
Proof.
  split.
  - intros text fuel Htext. unfold printFormatted, printFormatted_writes.
    by rewrite printFormatted_loop_zero.
  - intros text w fuel Htext Hw. pose proof (len_pos text Htext) as Hpos.
    unfold printFormatted, printFormatted_writes.
    rewrite printFormatted_loop_step by done.
    rewrite Z.gtb_ltb, (proj2 (Z.ltb_lt w (len text))) by lia.
    by rewrite slice_None_neg by lia.
Qed.

Lemma printFormatted_bad_width_witness :
  printFormatted 1000 (lit "ab") 0 = OutOfFuel /\
  printFormatted 1 (lit "ab") (-1) = Panicked.
Proof.
  destruct printFormatted_bad_width as [Hzero Hneg]. split.
  - apply (Hzero (lit "ab") 1000%nat). discriminate.
  - apply (Hneg (lit "ab") (-1) 0%nat); [discriminate | lia].
Defined.

(** ** More on [parseWithGenAI] *)

Lemma invocations_batch_events parseDescription chunkCount chunks : forall i,
  invocations (batch_events parseDescription chunkCount i chunks)
  = (fun chunk => (parseDescription, chunk)) <$> chunks.
Proof.
  induction chunks as [|chunk chunks IH]; intros i; [done|].
  cbn [batch_events]. rewrite invocations_app, IH. done.
Qed.

Section parseWithGenAI_trace.

Variable W : World.
Variable domChunks : list gostring.
Variable parseDescription : gostring.
Variable chunkCount : Z.
Hypothesis chunkCount_cap : 0 <= chunkCount <= maxChunks.
Hypothesis chunkCount_len : chunkCount <= len domChunks.

Local Abbreviation loop := (parseWithGenAI_loop W domChunks parseDescription).
Local Abbreviation events := (batch_events parseDescription chunkCount).

(** One iteration, with the events it adds to the trace. *)
Lemma parseWithGenAI_loop_step_trace fuel (i : nat) results tr chunk :
  Z.of_nat i < chunkCount ->
  length (invocations tr) = i ->
  domChunks !! i = Some chunk ->
  loop (S fuel) chunkCount (Z.of_nat i) results tr
  = match GenerateContent W i parseDescription chunk with
    | inr err =>
        (tr ++ events i [chunk],
         Returned
           ([], Some (wrapError
                        (lit "failed to generate content for chunk "
                         ++ format_d (Z.of_nat i + 1) ++ lit ": "
                         ++ Error err) err)))
    | inl resp =>
        loop fuel chunkCount (Z.of_nat (S i))
          (results ++ [response_text resp]) (tr ++ events i [chunk])
    end.
Proof.
  intros Hi Htr Hchunk. unfold maxChunks in *.
  assert (int_add (Z.of_nat i) 1 = Z.of_nat i + 1) as Hadd.
  { unfold int_add. apply wrap_id. unfold in_int, min_int, max_int. lia. }
  cbn [parseWithGenAI_loop batch_events].
  rewrite (proj2 (Z.ltb_lt (Z.of_nat i) chunkCount)) by lia.
  rewrite index_of_nat, Hchunk, Hadd.
  rewrite invocations_app, length_app, Htr. simpl length.
  rewrite Nat.add_0_r, app_nil_r.
  replace (tr ++ [EvPrintf (progress (Z.of_nat i + 1) chunkCount);
                  EvGenerateContent (lit "gemini-1.5-flash")
                    parseDescription chunk])
    with ((tr ++ [EvPrintf (progress (Z.of_nat i + 1) chunkCount)])
          ++ [EvGenerateContent (lit "gemini-1.5-flash")
                parseDescription chunk])
    by (by rewrite <- app_assoc).
  destruct (GenerateContent W i parseDescription chunk); [|done].
  by replace (Z.of_nat i + 1) with (Z.of_nat (S i)) by lia.
Qed.

(** The loop always returns; its trace grows by the events of the chunks
    it visited; it visits the whole rest of the batch exactly when it
    returns no error, and an error comes with an empty string. *)
Lemma parseWithGenAI_loop_trace fuel : forall (i : nat) results tr,
  Z.of_nat i <= chunkCount ->
  length (invocations tr) = i ->
  (Z.to_nat (chunkCount - Z.of_nat i) <= fuel)%nat ->
  exists (m : nat) text err,
    loop fuel chunkCount (Z.of_nat i) results tr
    = (tr ++ events i (take m (drop i domChunks)), Returned (text, err)) /\
    Z.of_nat (i + m) <= chunkCount /\
    (err = None -> Z.of_nat (i + m) = chunkCount) /\
    (err <> None -> text = [] /\ (1 <= m)%nat).
Proof.
  induction fuel as [|fuel IH]; intros i results tr Hi Htr Hfuel.
  - rewrite parseWithGenAI_loop_exit by lia.
    exists 0%nat, (Join results [LF]), None.
    rewrite take_0. simpl. rewrite app_nil_r.
    split; [done|]. split; [lia|]. split; [lia | done].
  - destruct (Z.ltb_spec (Z.of_nat i) chunkCount) as [Hlt|Hge].
    + destruct (batch_lookup domChunks chunkCount chunkCount_len i Hlt)
        as [chunk Hchunk].
      rewrite (parseWithGenAI_loop_step_trace fuel i results tr chunk)
        by done.
      destruct (GenerateContent W i parseDescription chunk) as [resp|e].
      * destruct (IH (S i) (results ++ [response_text resp])
                    (tr ++ events i [chunk]))
          as (m & text & err & Hrun & Hm & Hnone & Hsome); [lia | | lia |].
        { rewrite invocations_app, invocations_batch_events, length_app, Htr.
          simpl. lia. }
        exists (S m), text, err. rewrite Hrun.
        rewrite (drop_S _ _ _ Hchunk). cbn [take batch_events].
        rewrite <- !app_assoc. cbn [app].
        split; [done|]. split; [lia|]. split; [intros Herr; specialize (Hnone Herr); lia|].
        intros Herr. destruct (Hsome Herr). split; [done | lia].
      * eexists 1%nat, [], (Some _).
        rewrite (drop_S _ _ _ Hchunk). cbn [take].
        split; [done|]. split; [lia|]. split; [done|].
        intros _. split; [done | lia].
    + rewrite parseWithGenAI_loop_exit by lia.
      exists 0%nat, (Join results [LF]), None.
      rewrite take_0. simpl. rewrite app_nil_r.
      split; [done|]. split; [lia|]. split; [lia | done].
Qed.

End parseWithGenAI_trace.

(** A configured run, with its whole trace. *)
Lemma parseWithGenAI_trace W domChunks parseDescription :
  configured W ->
  exists (m : nat) text err,
    parseWithGenAI W domChunks parseDescription
    = ([EvNewClient (Getenv W "GEMINI_API_KEY")]
       ++ batch_events parseDescription (min (len domChunks) maxChunks) 0
            (take m domChunks)
       ++ [EvClose],
       Returned (text, err)) /\
    Z.of_nat m <= min (len domChunks) maxChunks /\
    (err = None -> Z.of_nat m = min (len domChunks) maxChunks) /\
    (err <> None -> text = [] /\ (1 <= m)%nat).
Proof.
  intros HW. rewrite parseWithGenAI_configured by done. cbv zeta.
  destruct (chunkCount_bounds domChunks) as [Hcap Hlen].
  destruct (parseWithGenAI_loop_trace W domChunks parseDescription
              _ Hcap Hlen (Z.to_nat (min (len domChunks) maxChunks))
              0%nat [] [EvNewClient (Getenv W "GEMINI_API_KEY")])
    as (m & text & err & -> & Hm & Hnone & Hsome); [lia | done | lia |].
  exists m, text, err. rewrite drop_0, <- app_assoc.
  split; [done|]. split; [lia|]. split; [|done].
  intros Herr. specialize (Hnone Herr). lia.
Qed.

(** The text of a response, candidate by candidate: candidates contribute
    in order, a candidate with a nil content contributes nothing, and a
    candidate with parts contributes every part followed by a newline. *)
Theorem response_text_candidates :
  (forall cands1 cands2,
     response_text {| Candidates := cands1 ++ cands2 |}
     = response_text {| Candidates := cands1 |}
       ++ response_text {| Candidates := cands2 |}) /\
  response_text {| Candidates := [ {| Content_ := None |} ] |} = [] /\
  (forall parts,
     response_text (response_of parts)
     = concat ((fun part => part_string part ++ [LF]) <$> parts)).
Proof.
  split; [|split].
  - intros cands1 cands2. rewrite !response_text_parts.
    unfold response_parts. simpl.
    by rewrite flat_map_app, fmap_app, concat_app.
  - done.
  - intros parts. rewrite response_text_parts.
    unfold response_parts, response_of. simpl. by rewrite app_nil_r.
Qed.

(** When the client cannot be created the run stops there: the error
    wraps the cause, the string is empty, the model is never called, and
    nothing is closed (the deferred [Close] is not yet registered). *)
Theorem parseWithGenAI_client_error W domChunks parseDescription err :
  Getenv W "GEMINI_API_KEY" <> [] ->
  NewClient W (Getenv W "GEMINI_API_KEY") = Some err ->
  exists e,
    parseWithGenAI W domChunks parseDescription
    = ([EvNewClient (Getenv W "GEMINI_API_KEY")], Returned ([], Some e)) /\
    Error e = lit "failed to create GenAI client: " ++ Error err /\
    Unwrap e = Some err.
Proof.
  intros Hkey Hclient. unfold parseWithGenAI.
  destruct (decide (Getenv W "GEMINI_API_KEY" = [])); [done|].
  rewrite Hclient. by eexists.
Qed.

Lemma parseWithGenAI_client_error_witness :
  exists e,
    parseWithGenAI client_fails three_chunks (lit "list the prices")
    = ([EvNewClient (Getenv client_fails "GEMINI_API_KEY")],
       Returned ([], Some e)) /\
    Error e = lit "failed to create GenAI client: "
              ++ Error (errorString (lit "no transport")) /\
    Unwrap e = Some (errorString (lit "no transport")).
Proof.
  apply (parseWithGenAI_client_error client_fails three_chunks
           (lit "list the prices") (errorString (lit "no transport"))).
  - by vm_compute.
  - reflexivity.
Defined.

(** Whatever the environment and the model do, [parseWithGenAI] returns
    (it never indexes outside [domChunks]), an error always comes with the
    empty string, and at most 16 calls reach the model. *)
Theorem parseWithGenAI_error_xor_text W domChunks parseDescription :
  exists tr text err,
    parseWithGenAI W domChunks parseDescription
    = (tr, Returned (text, err)) /\
    (err <> None -> text = []) /\
    len (invocations tr) <= maxChunks.
Proof.
  destruct (decide (Getenv W "GEMINI_API_KEY" = [])) as [Hkey|Hkey].
  { exists [], [], (Some (errorString (lit "GEMINI_API_KEY not set"))).
    unfold parseWithGenAI.
    destruct (decide (Getenv W "GEMINI_API_KEY" = [])); done. }
  destruct (NewClient W (Getenv W "GEMINI_API_KEY")) as [e|] eqn:Hclient.
  { eexists [EvNewClient _], [], (Some _). unfold parseWithGenAI.
    destruct (decide (Getenv W "GEMINI_API_KEY" = [])); [done|].
    rewrite Hclient. done. }
  destruct (parseWithGenAI_trace W domChunks parseDescription)
    as (m & text & err & Hrun & Hm & _ & Hsome); [done|].
  eexists _, text, err. split; [exact Hrun|]. split.
  - intros Herr. by destruct (Hsome Herr).
  - rewrite !invocations_app, invocations_batch_events. simpl.
    rewrite app_nil_r. unfold len. rewrite length_fmap, length_take.
    pose proof (min_bounds (len domChunks) maxChunks). lia.
Qed.

(** The shape of a configured run: the client is created, then for each
    chunk in turn the line ["Processing chunk i of N"] is printed and the
    call is made, [N] being the capped chunk count, and the client is
    closed last, whether the run ends in an error or not. The run visits
    the whole batch exactly when it returns no error. *)
Theorem parseWithGenAI_progress_and_close W domChunks parseDescription :
  configured W ->
  exists tr (m : nat) text err,
    parseWithGenAI W domChunks parseDescription
    = (tr, Returned (text, err)) /\
    tr = [EvNewClient (Getenv W "GEMINI_API_KEY")]
         ++ batch_events parseDescription (min (len domChunks) maxChunks) 0
              (take m domChunks)
         ++ [EvClose] /\
    last tr = Some EvClose /\
    invocations tr
    = (fun chunk => (parseDescription, chunk)) <$> take m domChunks /\
    Z.of_nat m <= min (len domChunks) maxChunks /\
    (err = None -> Z.of_nat m = min (len domChunks) maxChunks) /\
    (err <> None -> text = [] /\ (1 <= m)%nat).
Proof.
  intros HW.
  destruct (parseWithGenAI_trace W domChunks parseDescription HW)
    as (m & text & err & Hrun & Hm & Hnone & Hsome).
  eexists _, m, text, err. split; [exact Hrun|]. split; [done|]. split.
  { by rewrite !app_assoc, last_snoc. }
  split; [|done].
  rewrite !invocations_app, invocations_batch_events. simpl.
  by rewrite app_nil_r.
Qed.

Lemma parseWithGenAI_progress_and_close_witness :
  exists tr (m : nat) text err,
    parseWithGenAI second_fails three_chunks (lit "list the prices")
    = (tr, Returned (text, err)) /\
    tr = [EvNewClient (Getenv second_fails "GEMINI_API_KEY")]
         ++ batch_events (lit "list the prices")
              (min (len three_chunks) maxChunks) 0 (take m three_chunks)
         ++ [EvClose] /\
    last tr = Some EvClose /\
    invocations tr
    = (fun chunk => (lit "list the prices", chunk)) <$> take m three_chunks /\
    Z.of_nat m <= min (len three_chunks) maxChunks /\
    (err = None -> Z.of_nat m = min (len three_chunks) maxChunks) /\
    (err <> None -> text = [] /\ (1 <= m)%nat).
Proof.
  apply (parseWithGenAI_progress_and_close second_fails three_chunks
           (lit "list the prices")).
  split; by vm_compute.
Defined.

Lemma index_take_batch (domChunks : list gostring) i chunkCount :
  i < chunkCount -> chunkCount <= maxChunks ->
  index (take 16 domChunks) i = index domChunks i.
Proof.
  intros Hi Hcap. unfold index, maxChunks in *.
  destruct (0 <=? i) eqn:Hpos; [|done].
  apply lookup_take_lt. lia.
Qed.

Lemma parseWithGenAI_loop_take W domChunks parseDescription chunkCount fuel :
  chunkCount <= maxChunks ->
  forall i results tr,
    parseWithGenAI_loop W (take 16 domChunks) parseDescription
      fuel chunkCount i results tr
    = parseWithGenAI_loop W domChunks parseDescription
        fuel chunkCount i results tr.
Proof.
  intros Hcap. induction fuel as [|fuel IH]; intros i results tr; [done|].
  cbn [parseWithGenAI_loop].
  destruct (Z.ltb_spec i chunkCount) as [Hlt|Hge]; [|done].
  rewrite (index_take_batch domChunks i chunkCount Hlt Hcap).
  destruct (index domChunks i) as [chunk|]; [|done].
  destruct (GenerateContent W _ parseDescription chunk); [|done].
  apply IH.
Qed.

Lemma chunkCount_take (domChunks : list gostring) :
  min (len (take 16 domChunks)) maxChunks = min (len domChunks) maxChunks.
Proof.
  unfold min, maxChunks, len. rewrite length_take.
  destruct (Z.ltb_spec (Z.of_nat (16 `min` length domChunks)) 16),
           (Z.ltb_spec (Z.of_nat (length domChunks)) 16); lia.
Qed.

(** Chunks beyond the cap have no influence at all: in every world, a run
    on [domChunks] and a run on its first 16 chunks return the same
    result with the same trace. *)
Theorem parseWithGenAI_ignores_beyond_cap W domChunks parseDescription :
  parseWithGenAI W (take 16 domChunks) parseDescription
  = parseWithGenAI W domChunks parseDescription.
Proof.
  unfold parseWithGenAI. rewrite chunkCount_take.
  destruct (decide (Getenv W "GEMINI_API_KEY" = [])); [done|].
  destruct (NewClient W (Getenv W "GEMINI_API_KEY")); [done|].
  rewrite parseWithGenAI_loop_take; [done|].
  pose proof (min_bounds (len domChunks) maxChunks). lia.
Qed.

(** ** The functions in sequence, as [main] calls them *)

Lemma chunks_from_take_concat D L (m : nat) : forall k,
  1 <= L -> 0 <= k ->
  concat (take m (chunks_from D L k))
  = take (m * Z.to_nat L) (drop (Z.to_nat (k * L)) D).
Proof.
  induction m as [|m IH]; intros k HL Hk; [done|].
  pose proof (ceil_div_bounds (len D) L HL (len_nonneg D)) as Hc.
  destruct (Z.ltb_spec k (ceil_div (len D) L)) as [Hlt|Hge].
  - rewrite chunks_from_cons by done. cbn [take concat].
    rewrite (IH (k + 1)) by lia. unfold chunk_at.
    replace (Z.to_nat ((k + 1) * L)) with (Z.to_nat (k * L) + Z.to_nat L)%nat
      by nia.
    by rewrite <- drop_drop, take_take_drop.
  - rewrite chunks_from_nil by done.
    rewrite drop_ge by (unfold len in *; nia). by rewrite !take_nil.
Qed.

Lemma calls_chunks (parseDescription : gostring) (chunks : list gostring) :
  snd <$> ((fun chunk => (parseDescription, chunk)) <$> chunks) = chunks.
Proof.
  induction chunks as [|chunk chunks IH]; [done|].
  cbn [fmap list_fmap] in *. by rewrite IH.
Qed.

(** An empty document costs no model call: [splitDOMContent] yields no
    chunk, a configured [parseWithGenAI] creates and closes its client
    without calling the model and returns the empty string with no error,
    and [printFormatted] of that string is empty. *)
Theorem empty_document_pipeline W parseDescription fuel maxLength lineWidth :
  configured W ->
  exists chunks text,
    splitDOMContent fuel [] maxLength = Returned chunks /\
    parseWithGenAI W chunks parseDescription
    = ([EvNewClient (Getenv W "GEMINI_API_KEY"); EvClose],
       Returned (text, None)) /\
    printFormatted fuel text lineWidth = Returned [].
Proof.
  intros HW. exists [], []. split; [by destruct fuel|]. split.
  - by rewrite parseWithGenAI_configured.
  - unfold printFormatted, printFormatted_writes.
    by rewrite printFormatted_loop_nil.
Qed.

Lemma empty_document_pipeline_witness :
  exists chunks text,
    splitDOMContent 0 [] 6000 = Returned chunks /\
    parseWithGenAI ok_world chunks (lit "list the prices")
    = ([EvNewClient (Getenv ok_world "GEMINI_API_KEY"); EvClose],
       Returned (text, None)) /\
    printFormatted 0 text 80 = Returned [].
Proof.
  apply (empty_document_pipeline ok_world (lit "list the prices") 0 6000 80).
  split; by vm_compute.
Defined.

(** What reaches the model: splitting a document into chunks of
    [maxLength] bytes and sending them, when no call fails, sends exactly
    the first [16 * maxLength] bytes of the document, in order, in
    non-empty pieces of at most [maxLength] bytes, each with the
    instruction unchanged; a document of at most [16 * maxLength] bytes is
    sent whole, and the rest of a longer one is never sent. *)
Theorem sent_bytes W D L parseDescription :
  valid_string D -> 1 <= L <= max_int -> configured W ->
  exists chunks,
    (forall fuel, (length D <= fuel)%nat ->
       splitDOMContent fuel D L = Returned chunks) /\
    ((forall j : nat, Z.of_nat j < min (len chunks) maxChunks ->
        succeeds W chunks parseDescription j) ->
     exists tr text,
       parseWithGenAI W chunks parseDescription
       = (tr, Returned (text, None)) /\
       concat (snd <$> invocations tr) = take (16 * Z.to_nat L) D /\
       Forall (fun call => call.1 = parseDescription /\ 1 <= len call.2 <= L)
         (invocations tr) /\
       (len D <= maxChunks * L -> concat (snd <$> invocations tr) = D)).
Proof.
  intros HD HL HW. exists (chunks_from D L 0). split.
  { intros fuel Hfuel. by apply splitDOMContent_run. }
  intros Hok.
  destruct (parseWithGenAI_success W (chunks_from D L 0) parseDescription
              HW Hok) as (tr & Hrun & Hinv).
  rewrite take_batch in Hinv.
  assert (concat (snd <$> invocations tr) = take (16 * Z.to_nat L) D) as Hsent.
  { rewrite Hinv, calls_chunks.
    rewrite chunks_from_take_concat by lia.
    change (Z.to_nat (0 * L)) with 0%nat. by rewrite drop_0. }
  exists tr. eexists. split; [exact Hrun|]. split; [done|]. split.
  - rewrite Hinv. apply Forall_fmap, Forall_take.
    eapply Forall_impl; [apply (chunks_from_len D L 0); lia|].
    intros chunk Hchunk. by split.
  - intros Hshort. etrans; [exact Hsent|]. apply take_ge.
    unfold maxChunks, len in *. lia.
Qed.

Lemma sent_bytes_witness :
  exists chunks,
    (forall fuel, (length (lit "abcdefgh") <= fuel)%nat ->
       splitDOMContent fuel (lit "abcdefgh") 3 = Returned chunks) /\
    exists tr text,
      parseWithGenAI ok_world chunks (lit "list the prices")
      = (tr, Returned (text, None)) /\
      concat (snd <$> invocations tr)
      = take (16 * Z.to_nat 3) (lit "abcdefgh") /\
      Forall (fun call => call.1 = lit "list the prices"
                          /\ 1 <= len call.2 <= 3)
        (invocations tr) /\
      (len (lit "abcdefgh") <= maxChunks * 3 ->
       concat (snd <$> invocations tr) = lit "abcdefgh").
Proof.
  destruct (sent_bytes ok_world (lit "abcdefgh") 3 (lit "list the prices"))
    as (chunks & Hsplit & Hsend).
  - by vm_compute.
  - unfold max_int. lia.
  - split; by vm_compute.
  - exists chunks. split; [exact Hsplit|].
    apply Hsend. intros j Hj chunk Hchunk. eexists. reflexivity.
Defined.
